(** * YoutubeSpoilerHider: the content script [Content.js]

    The script hides spoilers on a video listing page.  Its three parts are
    - [containsSpoiler], the keyword matcher;
    - [processVideoElement], which masks one video container;
    - [processAllVideoElements] and the [MutationObserver] callback, which
      rescan the page.

    The page is embedded as a tree of DOM nodes, element references as
    paths into that tree, and every function of the script as a function on
    that tree.  Strings are sequences of code units; the embedding carries
    the code units 0..255 (ISO-8859-1), on which [toLowerCase] is a map on
    single characters.  What [toLowerCase] does to other code units is
    outside the embedding (see [JsString.toLowerChar]). *)

From stdpp Require Import base option list strings.
From Stdlib Require Import Ascii Lia.

Local Open Scope string_scope.
Local Open Scope nat_scope.
#[local] Arguments String.append !_ _ / : simpl nomatch.

(** ** JavaScript strings *)

Module JsString.

(** [String.prototype.toLowerCase] on one code unit below 256: the
    capital letters A-Z and the capital letters of the Latin-1 block
    (U+00C0..U+00DE without the multiplication sign U+00D7) move up by
    32; every other code unit stays.

    Beyond these code units [toLowerCase] is not a map on single
    characters, and the embedding does not follow it there.  It looks at
    the context: a capital sigma U+03A3 becomes the final sigma U+03C2
    at the end of a word and the sigma U+03C3 elsewhere.  It changes the
    length: U+0130 becomes the two code units U+0069 U+0307.  So with the
    keyword U+03A3 the script rejects the text U+039F U+0394 U+039F
    U+03A3, which holds the keyword as it is written: the text is
    lowered to a word ending in U+03C2, the keyword to U+03C3.  Every
    statement below about [containsSpoiler] and letter case is a
    statement about strings of code units below 256. *)
Definition toLowerChar (c : ascii) : ascii :=
  let n := nat_of_ascii c in
  if (((65 <=? n) && (n <=? 90)) ||
      ((192 <=? n) && (n <=? 222) && negb (n =? 215)))%nat
  then ascii_of_nat (n + 32) else c.

Fixpoint toLowerCase (s : string) : string :=
  match s with
  | EmptyString => EmptyString
  | String c s' => String (toLowerChar c) (toLowerCase s')
  end.

(** [s.startsWith(search)]. *)
Fixpoint startsWith (s search : string) {struct search} : bool :=
  match search, s with
  | EmptyString, _ => true
  | String _ _, EmptyString => false
  | String d search', String c s' =>
      if Ascii.eqb c d then startsWith s' search' else false
  end.

(** [s.includes(search)]: [search] occurs in [s] at some position. *)
Fixpoint includes (s search : string) : bool :=
  startsWith s search ||
  match s with
  | EmptyString => false
  | String _ s' => includes s' search
  end.

(** A JavaScript string used as a condition is true unless it is empty. *)
Definition truthy (s : string) : bool :=
  match s with EmptyString => false | String _ _ => true end.

(** White space and line terminators among the code units below 256:
    tab, line feed, vertical tab, form feed, carriage return, space and
    no-break space. *)
Definition isWhiteSpace (c : ascii) : bool :=
  let n := nat_of_ascii c in
  ((9 <=? n) && (n <=? 13) || (n =? 32) || (n =? 160))%nat.

(** A string of white space only; the empty string is one. *)
Fixpoint blank (s : string) : bool :=
  match s with
  | EmptyString => true
  | String c s' => isWhiteSpace c && blank s'
  end.

(** The double quote character, for messages that quote a title. *)
Definition dquote : string := String "034"%char EmptyString.

End JsString.

Import JsString.

(** ** The matcher

    [spoilerKeywords] is a global array that [keywords.js] defines before
    [Content.js] runs; here it is the first argument. *)

Definition containsSpoiler (spoilerKeywords : list string) (text : string) : bool :=
  let lowerCaseText := toLowerCase text in
  existsb (fun keyword => includes lowerCaseText (toLowerCase keyword))
          spoilerKeywords.

(** *** What the specification says of the matcher *)

(** [small] is the small letter of the capital letter [capital]: a-z of
    A-Z, and the small letters of the Latin-1 block (U+00E0..U+00FE
    without the division sign U+00F7) of the capital letters 32 places
    before them. *)
Definition smallOf (small capital : ascii) : bool :=
  let s := nat_of_ascii small in
  (s =? nat_of_ascii capital + 32)%nat
  && (((97 <=? s) && (s <=? 122))
      || ((224 <=? s) && (s <=? 254) && negb (s =? 247)))%nat.

(** Two characters are the same letter up to case: the same character,
    or a capital letter and its small letter. *)
Definition sameLetter (c d : ascii) : bool :=
  Ascii.eqb c d || smallOf c d || smallOf d c.

(** Two strings are equal up to letter case. *)
Inductive eqIgnoreCase : string → string → Prop :=
  | eic_empty : eqIgnoreCase EmptyString EmptyString
  | eic_char c d s t :
      sameLetter c d = true → eqIgnoreCase s t →
      eqIgnoreCase (String c s) (String d t).

(** [keyword] is a case-insensitive substring of [text]: some contiguous
    part of [text] equals [keyword] up to letter case. *)
Definition ciSubstring (keyword text : string) : Prop :=
  ∃ before part after_,
    text = before +:+ part +:+ after_ ∧ eqIgnoreCase part keyword.

(** ** The document tree *)

Module Dom.

(** What the script reads and writes of an element: its tag name (the
    lower-case local name, which is what a type selector compares), its
    [id], its class list, its inline [style] declarations in the order
    they were set, and [cascadePosition], the host's cascade for the
    property [position] of this element: the value [getComputedStyle]
    reports, given the value the element declares inline ([None] when it
    declares none).  The style sheets of the page, [!important] rules and
    the keywords [inherit], [initial] and [unset] are the host's business;
    the embedding takes its answer as it comes and assumes nothing of
    it. *)
Record element := Element {
  tagName : string;
  id : string;
  classList : list string;
  style : list (string * string);
  cascadePosition : option string → string
}.

(** The cascade of a page on which an inline declaration wins and the
    style sheets give [sheet] otherwise. *)
Definition inlineOrSheet (sheet : string) (inline : option string) : string :=
  default sheet inline.

#[local] Unset Elimination Schemes.
Inductive node :=
  | Text (data : string)
  | Elem (e : element) (childNodes : list node).
#[local] Set Elimination Schemes.

(** A reference to a node: the child indices that lead to it. *)
Definition path := list nat.

(** *** Selectors

    The selectors of the script are lists of a simple selector or of two
    simple selectors joined by the descendant combinator. *)
Inductive simpleSelector :=
  | TypeSel (tag : string)
  | IdSel (name : string)
  | ClassSel (name : string).

Inductive complexSelector :=
  | Simple (s : simpleSelector)
  | Descendant (ancestor s : simpleSelector).

Definition selectorList := list complexSelector.

Definition matchesSimple (s : simpleSelector) (e : element) : bool :=
  match s with
  | TypeSel tag => String.eqb (tagName e) tag
  | IdSel name => String.eqb (id e) name
  | ClassSel name => existsb (String.eqb name) (classList e)
  end.

(** [ancestors] are the elements above [e], up to the root of its tree. *)
Definition matchesComplex (ancestors : list element) (e : element)
    (c : complexSelector) : bool :=
  match c with
  | Simple s => matchesSimple s e
  | Descendant a s => matchesSimple s e && existsb (matchesSimple a) ancestors
  end.

Definition matches (sel : selectorList) (ancestors : list element)
    (e : element) : bool :=
  existsb (matchesComplex ancestors e) sel.

(** *** Tree search in document order *)

(** The first result among the children [l], numbered from [i]. *)
Definition firstIn {A} (f : A → option path) : nat → list A → option path :=
  fix go i l :=
    match l with
    | [] => None
    | c :: l' =>
        match f c with
        | Some p => Some (i :: p)
        | None => go (S i) l'
        end
    end.

(** All results among the children [l], numbered from [i]. *)
Definition allIn {A} (f : A → list path) : nat → list A → list path :=
  fix go i l :=
    match l with
    | [] => []
    | c :: l' => (((i ::.) <$> f c) ++ go (S i) l')%list
    end.

(** The first element of the subtree [n], itself included, that matches. *)
Fixpoint firstMatch (sel : selectorList) (ancestors : list element)
    (n : node) : option path :=
  match n with
  | Text _ => None
  | Elem e cs =>
      if matches sel ancestors e then Some []
      else firstIn (firstMatch sel (e :: ancestors)) 0 cs
  end.

(** All elements of the subtree [n], itself included, that match. *)
Fixpoint allMatches (sel : selectorList) (ancestors : list element)
    (n : node) : list path :=
  match n with
  | Text _ => []
  | Elem e cs =>
      ((if matches sel ancestors e then [[]] else [])
       ++ allIn (allMatches sel (e :: ancestors)) 0 cs)%list
  end.

(** [n.querySelector(sel)]: the first descendant of [n] that matches;
    [None] stands for [null]. *)
Definition querySelector (sel : selectorList) (ancestors : list element)
    (n : node) : option path :=
  match n with
  | Text _ => None
  | Elem e cs => firstIn (firstMatch sel (e :: ancestors)) 0 cs
  end.

(** [document.querySelectorAll(sel)], a static list: every element of the
    document, from its root element [doc] on, that matches. *)
Definition querySelectorAll (sel : selectorList) (doc : node) : list path :=
  allMatches sel [] doc.

(** *** Following and updating a reference *)

(** The node at [p] below [n], with the elements above it. *)
Fixpoint locate (p : path) (ancestors : list element) (n : node)
    : option (list element * node) :=
  match p with
  | [] => Some (ancestors, n)
  | i :: p' =>
      match n with
      | Elem e cs => cs !! i ≫= locate p' (e :: ancestors)
      | Text _ => None
      end
  end.

(** Replace the node at [p] below [n] by its image under [f]. *)
Fixpoint updateAt (p : path) (f : node → node) (n : node) : node :=
  match p with
  | [] => f n
  | i :: p' =>
      match n with
      | Elem e cs => Elem e (alter (updateAt p' f) i cs)
      | Text _ => n
      end
  end.

(** *** Node operations *)

(** The getter of [textContent]: the text of all descendants, in order. *)
Fixpoint textContent (n : node) : string :=
  match n with
  | Text data => data
  | Elem _ cs => String.concat "" (map textContent cs)
  end.

(** The setter of [textContent]: every child goes, and one text node
    comes in their place unless the new value is empty. *)
Definition setTextContent (value : string) (n : node) : node :=
  match n with
  | Text _ => Text value
  | Elem e _ => Elem e (if truthy value then [Text value] else [])
  end.

Definition appendChild (child : node) (n : node) : node :=
  match n with
  | Text _ => n
  | Elem e cs => Elem e (cs ++ [child])%list
  end.

(** [style[name] = value]: a declaration already there is replaced where
    it stands, a new one goes last. *)
Fixpoint setProperty (name value : string) (st : list (string * string))
    : list (string * string) :=
  match st with
  | [] => [(name, value)]
  | (k, v) :: st' =>
      if String.eqb k name then (name, value) :: st'
      else (k, v) :: setProperty name value st'
  end.

Fixpoint getProperty (name : string) (st : list (string * string))
    : option string :=
  match st with
  | [] => None
  | (k, v) :: st' => if String.eqb k name then Some v else getProperty name st'
  end.

Definition setStyle (name value : string) (e : element) : element :=
  {| tagName := tagName e; id := id e; classList := classList e;
     style := setProperty name value (style e);
     cascadePosition := cascadePosition e |}.

(** [window.getComputedStyle(e).position]: what the host's cascade makes
    of the inline declaration the element has now. *)
Definition computedPosition (e : element) : string :=
  cascadePosition e (getProperty "position" (style e)).

(** [document.createElement(tag)].  The script never asks for the
    computed style of an element it creates. *)
Definition createElement (tag : string) : element :=
  {| tagName := tag; id := ""; classList := []; style := [];
     cascadePosition := inlineOrSheet "static" |}.

Definition classListAdd (name : string) (e : element) : element :=
  {| tagName := tagName e; id := id e;
     classList := if existsb (String.eqb name) (classList e)
                  then classList e else (classList e ++ [name])%list;
     style := style e; cascadePosition := cascadePosition e |}.

(** [Object.assign(e.style, decls)]. *)
Definition assignStyle (decls : list (string * string)) (e : element) : element :=
  fold_left (fun e' kv => setStyle kv.1 kv.2 e') decls e.

End Dom.

Import Dom.

(** ** Masking one video container *)

Definition titleSelector : selectorList :=
  [ Simple (IdSel "video-title");
    Simple (ClassSel "yt-core-attributed-string");
    Simple (ClassSel "title");
    Descendant (ClassSel "yt-lockup-metadata-view-model-wiz__title")
               (TypeSel "span") ].

Definition overlaySelector : selectorList :=
  [ Simple (ClassSel "spoiler-overlay") ].

Definition thumbnailSelector : selectorList :=
  [ Simple (TypeSel "ytd-thumbnail"); Simple (TypeSel "yt-thumbnail-view-model") ].

(** The overlay the script builds: a [div] of class [spoiler-overlay] with
    its inline style and its label. *)
Definition overlay : node :=
  setTextContent "SPOILER"
    (Elem (assignStyle
             [ ("position", "absolute"); ("top", "0"); ("left", "0");
               ("width", "100%"); ("height", "100%");
               ("backgroundColor", "black"); ("zIndex", "10");
               ("display", "flex"); ("alignItems", "center");
               ("justifyContent", "center"); ("color", "white");
               ("fontSize", "1.5em"); ("fontWeight", "bold");
               ("textAlign", "center") ]
             (classListAdd "spoiler-overlay" (createElement "div")))
          []).

(** The thumbnail container is given [position: relative] when its
    computed position is [static]. *)
Definition ensurePositioned (n : node) : node :=
  match n with
  | Text _ => n
  | Elem e cs =>
      if String.eqb (computedPosition e) "static"
      then Elem (setStyle "position" "relative" e) cs
      else n
  end.

(** What the script does to a thumbnail container that has no overlay:
    it gives the container a positioning context, then appends the
    overlay. *)
Definition addOverlay (thumbnailContainer : node) : node :=
  appendChild overlay (ensurePositioned thumbnailContainer).

(** [textContent] of the element a reference points to. *)
Definition textContentAt (p : path) (n : node) : string :=
  match locate p [] n with
  | Some (_, m) => textContent m
  | None => ""
  end.

(** [processVideoElement] returns nothing.  The embedding names the exit a
    call takes with the outcomes of the specification, and records the
    calls of [containsSpoiler] and of [console.log] it makes, in order. *)
Inductive AnnotationOutcome :=
  | SkippedAlreadyMasked
  | SkippedNoTitle
  | SkippedNoMatch
  | Masked.

Inductive event :=
  | CallContainsSpoiler (text : string)
  | ConsoleLog (message : string).

(** [result] is the container after the call; [overwrote] is the title
    element whose text the call replaced, if it replaced one. *)
Record processed := Processed {
  outcome : AnnotationOutcome;
  result : node;
  events : list event;
  overwrote : option path
}.

Definition spoilerMessage (originalTitle : string) : string :=
  "Spoiler detected in title: " +:+ dquote +:+ originalTitle +:+ dquote
  +:+ ". Hiding...".

(** [ancestors] are the elements above [videoElement] in its tree. *)
Definition processVideoElement (spoilerKeywords : list string)
    (ancestors : list element) (videoElement : node) : processed :=
  match querySelector titleSelector ancestors videoElement with
  | None => Processed SkippedNoTitle videoElement [] None
  | Some titleElement =>
      if truthy (textContentAt titleElement videoElement) then
        let originalTitle := textContentAt titleElement videoElement in
        if String.eqb (textContentAt titleElement videoElement) "Spoiler"
           && bool_decide (is_Some (querySelector overlaySelector ancestors videoElement))
        then Processed SkippedAlreadyMasked videoElement [] None
        else if containsSpoiler spoilerKeywords originalTitle then
          let log := [ CallContainsSpoiler originalTitle;
                       ConsoleLog (spoilerMessage originalTitle) ] in
          let retitled := updateAt titleElement (setTextContent "Spoiler") videoElement in
          match querySelector thumbnailSelector ancestors retitled with
          | None => Processed Masked retitled log (Some titleElement)
          | Some thumbnailContainer =>
              match locate thumbnailContainer ancestors retitled with
              | Some (above, container) =>
                  if bool_decide (is_Some (querySelector overlaySelector above container))
                  then Processed Masked retitled log (Some titleElement)
                  else
                    Processed Masked
                      (updateAt thumbnailContainer addOverlay retitled)
                      log (Some titleElement)
              | None => Processed Masked retitled log (Some titleElement)
              end
          end
        else Processed SkippedNoMatch videoElement
               [ CallContainsSpoiler originalTitle ] None
      else Processed SkippedNoTitle videoElement [] None
  end.

(** ** Scanning the page *)

Definition videoSelectors : list string :=
  [ "ytd-video-renderer";
    "ytd-grid-video-renderer";
    "ytd-compact-video-renderer";
    "ytd-rich-grid-media";
    "ytd-playlist-video-renderer";
    "ytd-shelf-renderer";
    "ytd-watch-next-secondary-results-renderer";
    "yt-lockup-view-model" ].

(** [p] is a proper prefix of [r]: the node at [r] lies strictly below the
    node at [p]. *)
Fixpoint strictlyBelow (p r : path) : bool :=
  match p, r with
  | [], [] => false
  | [], _ :: _ => true
  | _ :: _, [] => false
  | i :: p', j :: r' => Nat.eqb i j && strictlyBelow p' r'
  end.

(** One pass over the static list that [querySelectorAll] returned.
    [page] is the document; [cleared] lists the title elements overwritten
    so far in the pass.  The nodes strictly below a cleared title are no
    longer in the document: [forEach] still visits a container among them,
    but that visit changes the removed subtree only, so the document stays
    as it is.  No other reference moves: an overwrite or an appended child
    leaves the index of every other node as it was. *)
Record scanState := ScanState {
  page : node;
  cleared : list path
}.

Definition visit (spoilerKeywords : list string) (st : scanState) (r : path)
    : scanState :=
  if existsb (fun p => strictlyBelow p r) (cleared st) then st
  else
    match locate r [] (page st) with
    | None => st
    | Some (ancestors, videoElement) =>
        let res := processVideoElement spoilerKeywords ancestors videoElement in
        {| page := updateAt r (fun _ => result res) (page st);
           cleared := match overwrote res with
                      | Some titleElement => (r ++ titleElement)%list :: cleared st
                      | None => cleared st
                      end |}
    end.

(** [document.querySelectorAll(selector).forEach(processVideoElement)]. *)
Definition scanSelector (spoilerKeywords : list string) (doc : node)
    (selector : string) : node :=
  page (fold_left (visit spoilerKeywords)
          (querySelectorAll [Simple (TypeSel selector)] doc)
          (ScanState doc [])).

(** The document after [processAllVideoElements()]. *)
Definition processAllVideoElements (spoilerKeywords : list string)
    (doc : node) : node :=
  fold_left (scanSelector spoilerKeywords) videoSelectors doc.

(** ** The change notifications *)

Record MutationRecord := {
  addedNodes : list node;
  removedNodes : list node
}.

(** The state the triggers act on: the document, and how many times
    [processAllVideoElements] has been called.  What the script writes to
    the console is recorded for one call of [processVideoElement] (its
    [events]); the state of the page leaves the console out. *)
Record world := World {
  document : node;
  scans : nat
}.

Definition scanAll (spoilerKeywords : list string) (w : world) : world :=
  {| document := processAllVideoElements spoilerKeywords (document w);
     scans := S (scans w) |}.

(** The callback given to [MutationObserver]. *)
Definition observerCallback (spoilerKeywords : list string)
    (mutations : list MutationRecord) (w : world) : world :=
  let newContentAdded :=
    fold_left (fun flag mutation =>
                 if (0 <? length (addedNodes mutation))%nat then true else flag)
              mutations false in
  if newContentAdded then scanAll spoilerKeywords w else w.

(** A call of the engine on the page: [processVideoElement] on the
    container at a reference; a full scan, as the script runs at load time,
    on [yt-navigate-finish] and from its timer; or a batch of mutation
    records handed to the observer callback. *)
Inductive call :=
  | Annotate (videoElement : path)
  | ScanAll
  | Notify (mutations : list MutationRecord).

Definition annotateAt (spoilerKeywords : list string) (r : path) (doc : node)
    : node :=
  match locate r [] doc with
  | Some (ancestors, videoElement) =>
      updateAt r (fun _ => result (processVideoElement spoilerKeywords ancestors videoElement)) doc
  | None => doc
  end.

Definition perform (spoilerKeywords : list string) (w : world) (c : call)
    : world :=
  match c with
  | Annotate r =>
      {| document := annotateAt spoilerKeywords r (document w); scans := scans w |}
  | ScanAll => scanAll spoilerKeywords w
  | Notify mutations => observerCallback spoilerKeywords mutations w
  end.

(** ** What the specification measures *)

Definition isOverlay (n : node) : bool :=
  match n with
  | Text _ => false
  | Elem e _ => matches overlaySelector [] e
  end.

(** The number of overlay elements in the subtree [n], itself included. *)
Fixpoint overlaysIn (n : node) : nat :=
  (if isOverlay n then 1 else 0) +
  match n with
  | Text _ => 0
  | Elem _ cs => sum_list (map overlaysIn cs)
  end.

(** The number of overlay elements below [n]. *)
Definition overlayCount (n : node) : nat :=
  match n with
  | Text _ => 0
  | Elem _ cs => sum_list (map overlaysIn cs)
  end.

(** The number of overlay elements among the children of [n]. *)
Definition overlayChildren (n : node) : nat :=
  match n with
  | Text _ => 0
  | Elem _ cs => length (filter (fun c => isOverlay c = true) cs)
  end.

(** No element of the subtree [n] has two overlay children. *)
Fixpoint singleOverlays (n : node) : bool :=
  (overlayChildren n <=? 1)%nat &&
  match n with
  | Text _ => true
  | Elem _ cs => forallb singleOverlays cs
  end.

(** The ways a call of [processVideoElement] ends: the container is left
    as it was; or its title is overwritten; or its title is overwritten and
    the thumbnail container, which had no overlay below it, gets one. *)
Inductive ending (anc : list element) (item : node) : processed → Prop :=
  | ending_untouched o log :
      o ≠ Masked →
      ending anc item (Processed o item log None)
  | ending_retitled tp log :
      querySelector titleSelector anc item = Some tp →
      ending anc item
        (Processed Masked (updateAt tp (setTextContent "Spoiler") item)
                   log (Some tp))
  | ending_covered tp q above container log :
      querySelector titleSelector anc item = Some tp →
      querySelector thumbnailSelector anc
        (updateAt tp (setTextContent "Spoiler") item) = Some q →
      locate q anc (updateAt tp (setTextContent "Spoiler") item)
        = Some (above, container) →
      querySelector overlaySelector above container = None →
      ending anc item
        (Processed Masked
           (updateAt q addOverlay (updateAt tp (setTextContent "Spoiler") item))
           log (Some tp)).

(** Two elements that a selector cannot tell apart: same tag name, same
    [id], same classes. *)
Definition sameName (e e' : element) : Prop :=
  tagName e = tagName e' ∧ id e = id e' ∧ classList e = classList e'.

(** No element of the subtree [n] is a video container, that is, has one of
    the tag names of [videoSelectors]. *)
Fixpoint noVideoContainer (n : node) : bool :=
  match n with
  | Text _ => true
  | Elem e cs =>
      negb (existsb (String.eqb (tagName e)) videoSelectors)
      && forallb noVideoContainer cs
  end.

(** ** Pages without nested containers *)

(** No video container lies below [n]. *)
Definition flat (n : node) : bool :=
  match n with
  | Text _ => true
  | Elem _ cs => forallb noVideoContainer cs
  end.

(** No video container of the subtree [n] lies inside another. *)
Fixpoint unnested (n : node) : bool :=
  match n with
  | Text _ => true
  | Elem e cs =>
      if existsb (String.eqb (tagName e)) videoSelectors
      then forallb noVideoContainer cs
      else forallb unnested cs
  end.

(** One call of [processVideoElement] on every element of the subtree [n]
    that has the tag name [tag] and lies in no other such element; [anc]
    are the elements above [n]. *)
Fixpoint passTree (spoilerKeywords : list string) (tag : string)
    (anc : list element) (n : node) : node :=
  match n with
  | Text _ => n
  | Elem e cs =>
      if String.eqb (tagName e) tag
      then result (processVideoElement spoilerKeywords anc n)
      else Elem e (map (passTree spoilerKeywords tag (e :: anc)) cs)
  end.

(** One call of [processVideoElement] on every outermost video container
    of the subtree [n]. *)
Fixpoint scanTree (spoilerKeywords : list string) (anc : list element)
    (n : node) : node :=
  match n with
  | Text _ => n
  | Elem e cs =>
      if existsb (String.eqb (tagName e)) videoSelectors
      then result (processVideoElement spoilerKeywords anc n)
      else Elem e (map (scanTree spoilerKeywords (e :: anc)) cs)
  end.

(** ** Sample pages *)

Module Samples.

Definition plain (tag : string) : element :=
  {| tagName := tag; id := ""; classList := []; style := [];
     cascadePosition := inlineOrSheet "static" |}.

Definition titleLink : element :=
  {| tagName := "a"; id := "video-title"; classList := []; style := [];
     cascadePosition := inlineOrSheet "static" |}.

Definition thumbnail : node :=
  Elem (plain "ytd-thumbnail") [Elem (plain "img") []].

(** A video card with a thumbnail and a title. *)
Definition card (title : string) : node :=
  Elem (plain "ytd-video-renderer") [thumbnail; Elem titleLink [Text title]].

(** A video card whose thumbnail has not been rendered. *)
Definition bareCard (title : string) : node :=
  Elem (plain "ytd-video-renderer") [Elem titleLink [Text title]].

(** A video card without a title element. *)
Definition untitledCard : node :=
  Elem (plain "ytd-video-renderer") [thumbnail].

(** A video card as the script leaves it after masking. *)
Definition maskedCard : node :=
  Elem (plain "ytd-video-renderer")
    [addOverlay thumbnail; Elem titleLink [Text "Spoiler"]].

Definition listing : node :=
  Elem (plain "html")
    [Elem (plain "body")
       [card "Season Finale Recap"; card "Cooking pasta";
        bareCard "The finale explained"]].

(** A batch of two records: one removal, and one with five added nodes. *)
Definition batch : list MutationRecord :=
  [ {| addedNodes := []; removedNodes := [card "Old"] |};
    {| addedNodes := [card "a"; card "b"; card "c"; card "d"; card "e"];
       removedNodes := [] |} ].

(** A batch of removals only. *)
Definition removals : list MutationRecord :=
  [ {| addedNodes := []; removedNodes := [card "Old"] |};
    {| addedNodes := []; removedNodes := [card "Older"] |} ].

End Samples.

(** ** More sample pages *)

Module MoreSamples.

(** A page without video containers. *)
Definition article : node :=
  Elem (Samples.plain "html")
    [Elem (Samples.plain "body")
       [Elem (Samples.plain "p") [Text "No videos on this page"]]].

(** A page with video containers at different depths, none inside
    another. *)
Definition home : node :=
  Elem (Samples.plain "html")
    [Elem (Samples.plain "body")
       [Elem (Samples.plain "div")
          [Samples.card "Season Finale Recap";
           Elem (Samples.plain "div") [Samples.card "Cooking pasta"]];
        Samples.bareCard "The finale explained"]].

End MoreSamples.

(** * Properties of the matcher *)

Section matcher_facts.

Lemma startsWith_iff (s search : string) :
  startsWith s search = true ↔ ∃ r, s = search +:+ r.
Proof.
  revert s. induction search as [|d a IH]; intros s; simpl.
  - split; [intros _; exists s; reflexivity | reflexivity].
  - destruct s as [|c s].
    + split; [discriminate | intros [r Hr]; discriminate].
    + destruct (Ascii.eqb_spec c d) as [->|Hne].
      * rewrite IH. split; intros [r Hr]; exists r; simpl in *; congruence.
      * split; [discriminate | intros [r Hr]; simpl in Hr; congruence].
Qed.

Lemma includes_iff (s search : string) :
  includes s search = true ↔ ∃ before after_, s = before +:+ search +:+ after_.
Proof.
  induction s as [|c s IH]; simpl.
  - rewrite orb_false_r, startsWith_iff. split.
    + intros [r Hr]. by exists EmptyString, r.
    + intros (b & a & H). destruct b; [by exists a | discriminate].
  - rewrite orb_true_iff, startsWith_iff, IH. split.
    + intros [[r Hr] | (b & a & H)].
      * by exists EmptyString, r.
      * exists (String c b), a. simpl. by rewrite H.
    + intros (b & a & H). destruct b as [|c' b]; simpl in H.
      * left. by exists a.
      * right. exists b, a. congruence.
Qed.

Lemma toLowerCase_app (s t : string) :
  toLowerCase (s +:+ t) = toLowerCase s +:+ toLowerCase t.
Proof. induction s as [|c s IH]; simpl; [done | by rewrite IH]. Qed.

(** A split of the lowered text comes from a split of the text. *)
Lemma toLowerCase_split (s a b : string) :
  toLowerCase s = a +:+ b →
  ∃ s1 s2, s = s1 +:+ s2 ∧ toLowerCase s1 = a ∧ toLowerCase s2 = b.
Proof.
  revert a. induction s as [|c s IH]; intros a H; simpl in H.
  - destruct a; [|discriminate]. simpl in H. subst b.
    by exists EmptyString, EmptyString.
  - destruct a as [|d a]; simpl in H.
    + exists EmptyString, (String c s). by subst b.
    + injection H as Hc Hs. destruct (IH _ Hs) as (s1 & s2 & -> & <- & <-).
      exists (String c s1), s2. simpl. by rewrite Hc.
Qed.

(** Lowering sends two characters to the same character exactly when
    they are the same letter up to case: checked on all pairs of code
    units below 256. *)
Lemma sameLetter_iff (c d : ascii) :
  sameLetter c d = true ↔ toLowerChar c = toLowerChar d.
Proof.
  assert (Hall : forallb (fun n => forallb (fun m =>
            Bool.eqb (sameLetter (ascii_of_nat n) (ascii_of_nat m))
              (Ascii.eqb (toLowerChar (ascii_of_nat n))
                         (toLowerChar (ascii_of_nat m))))
            (seq 0 256)) (seq 0 256) = true) by (vm_compute; reflexivity).
  rewrite forallb_forall in Hall.
  specialize (Hall (nat_of_ascii c)). rewrite forallb_forall in Hall.
  specialize (Hall ltac:(apply in_seq; pose proof (nat_ascii_bounded c); lia)
                   (nat_of_ascii d)
                   ltac:(apply in_seq; pose proof (nat_ascii_bounded d); lia)).
  rewrite !ascii_nat_embedding in Hall. apply Bool.eqb_prop in Hall.
  rewrite Hall. apply Ascii.eqb_eq.
Qed.

Lemma eqIgnoreCase_iff (s t : string) :
  eqIgnoreCase s t ↔ toLowerCase s = toLowerCase t.
Proof.
  split.
  - induction 1 as [|c d s t Hcd%sameLetter_iff _ IH]; simpl; congruence.
  - revert t. induction s as [|c s IH]; intros [|d t] H; simpl in H;
      try discriminate; [constructor|].
    injection H as Hc%sameLetter_iff Hs. constructor; auto.
Qed.

Lemma includes_lower_iff (text keyword : string) :
  includes (toLowerCase text) (toLowerCase keyword) = true ↔
  ciSubstring keyword text.
Proof.
  rewrite includes_iff. unfold ciSubstring. split.
  - intros (b & a & H).
    apply toLowerCase_split in H as (s1 & s23 & -> & <- & H).
    apply toLowerCase_split in H as (s2 & s3 & -> & H2 & <-).
    exists s1, s2, s3. split; [done | by apply eqIgnoreCase_iff].
  - intros (b & p & a & -> & H%eqIgnoreCase_iff).
    exists (toLowerCase b), (toLowerCase a).
    by rewrite !toLowerCase_app, H.
Qed.

Lemma containsSpoiler_iff (kws : list string) (text : string) :
  containsSpoiler kws text = true ↔
  Exists (fun keyword => ciSubstring keyword text) kws.
Proof.
  unfold containsSpoiler. induction kws as [|k kws IH]; simpl.
  - split; [discriminate | by intros ?%Exists_nil].
  - by rewrite orb_true_iff, Exists_cons, IH, includes_lower_iff.
Qed.

End matcher_facts.

(** * The matcher: claims *)

(** The matcher on strings of code units below 256.  With a keyword list
    of non-empty strings, [containsSpoiler text] is true exactly when some
    keyword is a case-insensitive substring of [text], and it is false on
    the empty string.  The equivalence does not reach beyond these code
    units: see the note on [toLowerCase]. *)
Lemma matcher_correct (kws : list string) (text : string) :
  Forall (fun keyword => keyword ≠ "") kws →
  (containsSpoiler kws text = true ↔
   Exists (fun keyword => ciSubstring keyword text) kws)
  ∧ (containsSpoiler kws text = false ↔
     Forall (fun keyword => ¬ ciSubstring keyword text) kws)
  ∧ containsSpoiler kws "" = false.
Proof.
  intros Hne. split; [apply containsSpoiler_iff|]. split.
  - rewrite <- not_true_iff_false, containsSpoiler_iff.
    clear Hne. induction kws as [|k kws IH].
    + split; [constructor | by intros _ ?%Exists_nil].
    + rewrite Exists_cons, Forall_cons, <- IH. tauto.
  - unfold containsSpoiler. simpl. induction Hne as [|k kws Hk _ IH]; [done|].
    simpl. rewrite IH, !orb_false_r. destruct k; [done|]. reflexivity.
Qed.

Lemma matcher_correct_witness :
  (containsSpoiler ["finale"; "war"] "Software update" = true ↔
   Exists (fun keyword => ciSubstring keyword "Software update") ["finale"; "war"])
  ∧ (containsSpoiler ["finale"; "war"] "Software update" = false ↔
     Forall (fun keyword => ¬ ciSubstring keyword "Software update") ["finale"; "war"])
  ∧ containsSpoiler ["finale"; "war"] "" = false.
Proof.
  apply (matcher_correct ["finale"; "war"] "Software update").
  repeat constructor; discriminate.
Defined.

(** C10. A keyword list that holds the empty string makes
    [containsSpoiler] true on every text, the empty text included. *)
Theorem empty_keyword_matches_all (kws : list string) (text : string) :
  "" ∈ kws →
  containsSpoiler kws text = true ∧ containsSpoiler kws "" = true.
Proof.
  intros Hin.
  assert (H : ∀ t, containsSpoiler kws t = true).
  { intros t. apply containsSpoiler_iff, Exists_exists. exists "". split; [done|].
    exists "", "", t. split; [reflexivity | constructor]. }
  split; apply H.
Qed.

Lemma empty_keyword_matches_all_witness :
  containsSpoiler ["finale"; ""] "Cooking pasta" = true
  ∧ containsSpoiler ["finale"; ""] "" = true.
Proof.
  apply (empty_keyword_matches_all ["finale"; ""] "Cooking pasta").
  apply list_elem_of_In. simpl. right. left. reflexivity.
Defined.

(** * The document tree: lemmas *)

Section tree_facts.

(** Induction over a tree, with the property at hand for every child. *)
Lemma node_ind (P : node → Prop) :
  (∀ data, P (Text data)) →
  (∀ e cs, Forall P cs → P (Elem e cs)) →
  ∀ n, P n.
Proof.
  intros HText HElem. fix IH 1. intros [data|e cs]; [apply HText|].
  apply HElem. induction cs as [|c cs IHcs]; constructor; [apply IH | apply IHcs].
Qed.

(** *** Searching a list of children *)

Lemma firstIn_None {A} (f : A → option path) i l :
  firstIn f i l = None ↔ Forall (fun c => f c = None) l.
Proof.
  revert i. induction l as [|c l IH]; intros i; simpl.
  - split; [constructor | done].
  - rewrite Forall_cons. destruct (f c) eqn:E.
    + split; [done | by intros [? _]].
    + rewrite IH. tauto.
Qed.

Lemma firstIn_Some {A} (f : A → option path) i l q :
  firstIn f i l = Some q ↔
  ∃ k c p, q = (i + k) :: p ∧ l !! k = Some c ∧ f c = Some p ∧
           Forall (fun c' => f c' = None) (take k l).
Proof.
  revert i. induction l as [|c l IH]; intros i; simpl.
  - split; [done | by intros (k & c & p & _ & ? & _)].
  - destruct (f c) as [p|] eqn:E.
    + split.
      * intros [= <-]. exists 0, c, p. rewrite Nat.add_0_r. repeat split; [done|].
        constructor.
      * intros (k & c' & p' & -> & Hk & Hc' & Hbefore).
        destruct k as [|k]; simpl in *.
        -- rewrite Nat.add_0_r. by simplify_eq.
        -- apply Forall_cons in Hbefore as [? _]. by simplify_eq.
    + rewrite IH. split.
      * intros (k & c' & p & -> & Hk & Hc' & Hbefore).
        exists (S k), c', p. rewrite Nat.add_succ_r. repeat split; [done..|].
        simpl. by constructor.
      * intros (k & c' & p & -> & Hk & Hc' & Hbefore).
        destruct k as [|k]; simpl in *; [by simplify_eq|].
        exists k, c', p. rewrite Nat.add_succ_r.
        apply Forall_cons in Hbefore as [_ ?]. done.
Qed.

(** A child that is searched the same way as before and changes at one
    place keeps the first result there. *)
Lemma firstIn_alter {A} (f : A → option path) (g : A → A) i l k p :
  firstIn f i l = Some ((i + k) :: p) →
  (∀ c, l !! k = Some c → f c = Some p → f (g c) = Some p) →
  firstIn f i (alter g k l) = Some ((i + k) :: p).
Proof.
  intros (k' & c & p' & [= Hk <-] & Hl & Hc & Hbefore)%firstIn_Some Hg.
  assert (k' = k) as -> by lia.
  apply firstIn_Some. exists k, (g c), p. repeat split.
  - by rewrite list_lookup_alter_eq, Hl.
  - by apply Hg.
  - rewrite take_alter. case_decide; [lia | done].
Qed.

(** *** References *)

Lemma locate_node (p : path) anc anc' n :
  (snd <$> locate p anc n) = (snd <$> locate p anc' n).
Proof.
  revert anc anc' n. induction p as [|i p IH]; intros anc anc' n; [done|].
  destruct n as [|e cs]; simpl; [done|].
  destruct (cs !! i); simpl; [apply IH | done].
Qed.

Lemma locate_updateAt (p : path) f anc n above m :
  locate p anc n = Some (above, m) →
  locate p anc (updateAt p f n) = Some (above, f m).
Proof.
  revert anc n. induction p as [|i p IH]; intros anc n; simpl.
  - by intros [= -> ->].
  - destruct n as [|e cs]; [done|]. simpl.
    rewrite list_lookup_alter_eq. destruct (cs !! i) as [c|]; simpl; [|done].
    apply IH.
Qed.

(** *** First match *)

Lemma firstMatch_locate sel anc n p :
  firstMatch sel anc n = Some p →
  ∃ above e cs, locate p anc n = Some (above, Elem e cs) ∧
                matches sel above e = true.
Proof.
  revert anc p. induction n as [data|e cs IH] using node_ind; intros anc p; simpl; [done|].
  destruct (matches sel anc e) eqn:Hm.
  - intros [= <-]. by exists anc, e, cs.
  - intros (k & c & p' & -> & Hk & Hc & _)%firstIn_Some. simpl.
    rewrite Hk. simpl. rewrite Forall_lookup in IH. by eapply IH.
Qed.

Lemma querySelector_locate sel anc n p :
  querySelector sel anc n = Some p →
  ∃ i p' above e cs, p = i :: p' ∧
    locate p anc n = Some (above, Elem e cs) ∧ matches sel above e = true.
Proof.
  destruct n as [|e cs]; simpl; [done|].
  intros (k & c & p' & -> & Hk & Hc & _)%firstIn_Some.
  destruct (firstMatch_locate _ _ _ _ Hc) as (above & e' & cs' & Hl & Hm).
  exists k, p', above, e', cs'. simpl. rewrite Hk. done.
Qed.

(** *** What an update of the tree does to a search *)

Lemma firstMatch_None_inv sel anc e cs :
  firstMatch sel anc (Elem e cs) = None ↔
  matches sel anc e = false ∧
  Forall (fun c => firstMatch sel (e :: anc) c = None) cs.
Proof.
  simpl. destruct (matches sel anc e).
  - split; [done | by intros [? _]].
  - rewrite firstIn_None. tauto.
Qed.

Lemma querySelector_None_inv sel anc e cs :
  querySelector sel anc (Elem e cs) = None ↔
  Forall (fun c => firstMatch sel (e :: anc) c = None) cs.
Proof. apply firstIn_None. Qed.

(** An update that brings no match where it acts brings none at all. *)
Lemma firstMatch_None_updateAt sel f :
  (∀ anc n, firstMatch sel anc n = None → firstMatch sel anc (f n) = None) →
  ∀ p anc n,
    firstMatch sel anc n = None → firstMatch sel anc (updateAt p f n) = None.
Proof.
  intros Hf. induction p as [|i p IH]; intros anc n; [apply Hf|].
  destruct n as [|e cs]; [done|].
  intros [Hm Hcs]%firstMatch_None_inv. cbn [updateAt].
  apply firstMatch_None_inv. split; [done|].
  apply Forall_alter; [done|]. intros c _. apply IH.
Qed.

Lemma firstMatch_None_setTextContent sel value anc n :
  firstMatch sel anc n = None →
  firstMatch sel anc (setTextContent value n) = None.
Proof.
  destruct n as [|e cs]; [done|].
  rewrite firstMatch_None_inv. intros [Hm _]. simpl. rewrite Hm.
  by destruct (truthy value).
Qed.

Lemma querySelector_None_retitle sel value p anc n :
  querySelector sel anc n = None →
  querySelector sel anc (updateAt p (setTextContent value) n) = None.
Proof.
  destruct n as [|e cs]; [by destruct p|].
  destruct p as [|i p].
  - intros _. simpl. by destruct (truthy value).
  - rewrite querySelector_None_inv. intros Hcs. simpl.
    apply firstIn_None, Forall_alter; [done|]. intros c _.
    apply firstMatch_None_updateAt. intros ??. apply firstMatch_None_setTextContent.
Qed.

(** Where nothing matches in a tree, nothing matches below any node. *)
Lemma firstMatch_None_locate sel p anc n above m :
  firstMatch sel anc n = None →
  locate p anc n = Some (above, m) →
  firstMatch sel above m = None.
Proof.
  revert anc n. induction p as [|i p IH]; intros anc n Hn; simpl.
  - by intros [= <- <-].
  - destruct n as [|e cs]; [done|].
    apply firstMatch_None_inv in Hn as [_ Hcs].
    destruct (cs !! i) as [c|] eqn:Hc; simpl; [|done].
    apply IH. by eapply Forall_lookup_1 in Hcs.
Qed.

Lemma firstMatch_None_querySelector sel anc n :
  firstMatch sel anc n = None → querySelector sel anc n = None.
Proof.
  destruct n as [|e cs]; [done|].
  rewrite firstMatch_None_inv, querySelector_None_inv. tauto.
Qed.

Lemma querySelector_None_locate sel i p anc n above m :
  querySelector sel anc n = None →
  locate (i :: p) anc n = Some (above, m) →
  querySelector sel above m = None.
Proof.
  destruct n as [|e cs]; [done|].
  rewrite querySelector_None_inv. intros Hcs. simpl.
  destruct (cs !! i) as [c|] eqn:Hc; simpl; [|done]. intros Hl.
  eapply firstMatch_None_querySelector, firstMatch_None_locate; [|done].
  by eapply Forall_lookup_1 in Hcs.
Qed.

(** An update that keeps the element it acts on keeps the first match
    when it acts there. *)
Lemma firstMatch_updateAt_same sel f :
  (∀ e cs, ∃ cs', f (Elem e cs) = Elem e cs') →
  ∀ p anc n,
    firstMatch sel anc n = Some p → firstMatch sel anc (updateAt p f n) = Some p.
Proof.
  intros Hf. induction p as [|i p IH]; intros anc n;
    (destruct n as [|e cs]; [done|]); simpl;
    destruct (matches sel anc e) eqn:Hm; try done.
  - intros _. destruct (Hf e cs) as [cs' ->]. simpl. by rewrite Hm.
  - by intros (k & c & p' & [=] & _)%firstIn_Some.
  - intros H. pose proof H as (k & c & p' & [= -> ->] & _)%firstIn_Some.
    change (0 + k) with k in *.
    apply (firstIn_alter _ _ 0); [done|]. intros c' _. apply IH.
Qed.

Lemma querySelector_updateAt_same sel f p anc n :
  (∀ e cs, ∃ cs', f (Elem e cs) = Elem e cs') →
  querySelector sel anc n = Some p →
  querySelector sel anc (updateAt p f n) = Some p.
Proof.
  intros Hf. destruct n as [|e cs]; [done|]. simpl.
  intros H. pose proof H as (k & c & p' & [= ->] & _)%firstIn_Some.
  change (0 + k) with k in *. simpl.
  apply (firstIn_alter _ _ 0); [done|]. intros c' _.
  by apply firstMatch_updateAt_same.
Qed.

Lemma setTextContent_keeps value e cs :
  ∃ cs', setTextContent value (Elem e cs) = Elem e cs'.
Proof. by eexists. Qed.

(** *** Counting overlays *)

Lemma sum_list_alter_le {A} (h : A → nat) (g : A → A) d i l :
  (∀ c, l !! i = Some c → h (g c) ≤ h c + d) →
  sum_list (map h (alter g i l)) ≤ sum_list (map h l) + d.
Proof.
  revert i. induction l as [|c l IH]; intros [|i] Hg; simpl; try lia.
  - specialize (Hg c eq_refl). lia.
  - specialize (IH i Hg). change (alter g i l) with (list_alter g i l) in IH. lia.
Qed.

Lemma overlaysIn_unfold n :
  overlaysIn n = (if isOverlay n then 1 else 0) + overlayCount n.
Proof. by destruct n. Qed.

Lemma overlaysIn_updateAt_le f d :
  (∀ m, overlaysIn (f m) ≤ overlaysIn m + d) →
  ∀ p n, overlaysIn (updateAt p f n) ≤ overlaysIn n + d.
Proof.
  intros Hf. induction p as [|i p IH]; intros n; [apply Hf|].
  destruct n as [|e cs]; simpl; [lia|].
  pose proof (sum_list_alter_le overlaysIn (updateAt p f) d i cs
                (fun c _ => IH c)). lia.
Qed.

Lemma isOverlay_updateAt_at f p anc n :
  (∀ above m, locate p anc n = Some (above, m) → isOverlay (f m) = isOverlay m) →
  isOverlay (updateAt p f n) = isOverlay n.
Proof. intros Hf. destruct p, n; simpl; eauto. Qed.

Lemma isOverlay_updateAt f p n :
  (∀ m, isOverlay (f m) = isOverlay m) →
  isOverlay (updateAt p f n) = isOverlay n.
Proof. intros Hf. apply (isOverlay_updateAt_at f p []). auto. Qed.

Lemma overlayCount_updateAt_le f d p n :
  (∀ m, overlaysIn (f m) ≤ overlaysIn m + d) →
  (∀ m, isOverlay (f m) = isOverlay m) →
  overlayCount (updateAt p f n) ≤ overlayCount n + d.
Proof.
  intros Hle Hsame.
  pose proof (overlaysIn_updateAt_le f d Hle p n) as H.
  rewrite !overlaysIn_unfold, isOverlay_updateAt in H by done. lia.
Qed.

Lemma overlaysIn_setTextContent value m :
  overlaysIn (setTextContent value m) ≤ overlaysIn m + 0.
Proof. destruct m as [|e cs]; simpl; [lia|]. destruct (truthy value); simpl; lia. Qed.

Lemma isOverlay_setTextContent value m :
  isOverlay (setTextContent value m) = isOverlay m.
Proof. by destruct m. Qed.

Lemma isOverlay_ensurePositioned m :
  isOverlay (ensurePositioned m) = isOverlay m.
Proof.
  destruct m as [|e cs]; [done|]. simpl.
  by destruct (String.eqb (computedPosition e) "static").
Qed.

Lemma isOverlay_appendChild child m :
  isOverlay (appendChild child m) = isOverlay m.
Proof. by destruct m. Qed.

Lemma overlayCount_ensurePositioned m :
  overlayCount (ensurePositioned m) = overlayCount m.
Proof.
  destruct m as [|e cs]; [done|]. simpl.
  by destruct (String.eqb (computedPosition e) "static").
Qed.

Lemma overlaysIn_overlay : overlaysIn overlay = 1.
Proof. reflexivity. Qed.

Lemma overlaysIn_append_overlay m :
  overlaysIn (appendChild overlay (ensurePositioned m)) ≤ overlaysIn m + 1.
Proof.
  rewrite !overlaysIn_unfold, isOverlay_appendChild, isOverlay_ensurePositioned.
  rewrite <- (overlayCount_ensurePositioned m).
  destruct (ensurePositioned m) as [|e cs]; simpl; [lia|].
  rewrite map_app, sum_list_with_app. simpl. lia.
Qed.

(** *** At most one overlay child *)

Lemma singleOverlays_Elem e cs :
  singleOverlays (Elem e cs) = true ↔
  overlayChildren (Elem e cs) ≤ 1 ∧ Forall (fun c => singleOverlays c = true) cs.
Proof.
  simpl. rewrite andb_true_iff, Nat.leb_le, forallb_forall, Forall_forall.
  by setoid_rewrite list_elem_of_In.
Qed.

Lemma overlay_children_alter (g : node → node) i cs :
  (∀ c, cs !! i = Some c → isOverlay (g c) = isOverlay c) →
  length (filter (fun c => isOverlay c = true) (alter g i cs)) =
  length (filter (fun c => isOverlay c = true) cs).
Proof.
  revert i. induction cs as [|c cs IH]; intros [|i] Hg; try done.
  - change (alter g 0 (c :: cs)) with (g c :: cs).
    rewrite !filter_cons, (Hg c eq_refl). by destruct (decide _).
  - change (alter g (S i) (c :: cs)) with (c :: alter g i cs).
    rewrite !filter_cons. destruct (decide _); simpl; rewrite IH; auto.
Qed.

Lemma singleOverlays_locate p anc n above m :
  singleOverlays n = true →
  locate p anc n = Some (above, m) →
  singleOverlays m = true.
Proof.
  revert anc n. induction p as [|i p IH]; intros anc n Hn; simpl.
  - by intros [= <- <-].
  - destruct n as [|e cs]; [done|].
    apply singleOverlays_Elem in Hn as [_ Hcs].
    destruct (cs !! i) as [c|] eqn:Hc; simpl; [|done].
    apply IH. by eapply Forall_lookup_1 in Hcs.
Qed.

Lemma singleOverlays_updateAt f p anc n :
  singleOverlays n = true →
  (∀ above m, locate p anc n = Some (above, m) → singleOverlays m = true →
              singleOverlays (f m) = true ∧ isOverlay (f m) = isOverlay m) →
  singleOverlays (updateAt p f n) = true.
Proof.
  revert anc n. induction p as [|i p IH]; intros anc n Hn Hf.
  - by apply (Hf anc n).
  - destruct n as [|e cs]; [done|]. cbn [updateAt].
    apply singleOverlays_Elem in Hn as [Hcount Hcs].
    apply singleOverlays_Elem. split.
    + unfold overlayChildren in *. rewrite overlay_children_alter; [done|].
      intros c Hc. apply (isOverlay_updateAt_at f p (e :: anc)).
      intros above m Hl. apply (Hf above m).
      * simpl. by rewrite Hc.
      * eapply singleOverlays_locate; [|done]. by eapply Forall_lookup_1 in Hcs.
    + apply Forall_alter; [done|]. intros c Hc Hsingle.
      apply (IH (e :: anc)); [done|]. intros above m Hl.
      apply (Hf above m). simpl. by rewrite Hc.
Qed.

End tree_facts.

(** * Masking one container: lemmas *)

Section annotator_facts.

Variable kws : list string.

Lemma truthy_iff s : truthy s = true ↔ s ≠ "".
Proof. by destruct s. Qed.

Lemma matches_overlay anc e :
  matches overlaySelector anc e = matches overlaySelector [] e.
Proof. reflexivity. Qed.

(** A container without an overlay below it has no overlay child. *)
Lemma no_overlay_children above container :
  querySelector overlaySelector above container = None →
  overlayChildren container = 0.
Proof.
  destruct container as [|e cs]; [done|].
  rewrite querySelector_None_inv. simpl. induction 1 as [|c cs Hc _ IH]; [done|].
  rewrite filter_cons. destruct (decide _) as [Hov|]; [|done].
  destruct c as [|e' cs']; [done|].
  apply firstMatch_None_inv in Hc as [Hc _].
  rewrite matches_overlay in Hc. cbn [isOverlay] in Hov. congruence.
Qed.

(** Where the overlay selector finds nothing there is no overlay. *)
Lemma no_match_no_overlays anc n :
  firstMatch overlaySelector anc n = None → overlaysIn n = 0.
Proof.
  revert anc. induction n as [|e cs IH] using node_ind; intros anc; [done|].
  intros [Hm Hcs]%firstMatch_None_inv. rewrite matches_overlay in Hm.
  cbn [overlaysIn isOverlay]. rewrite Hm.
  assert (Hsum : sum_list (map overlaysIn cs) = 0); [|by rewrite Hsum].
  clear Hm. induction cs as [|c cs IHcs]; [done|].
  apply Forall_cons in IH as [Hc IH]. apply Forall_cons in Hcs as [Hnone Hcs].
  simpl. rewrite (Hc _ Hnone), (IHcs IH Hcs). reflexivity.
Qed.

Lemma no_overlay_below above n :
  querySelector overlaySelector above n = None → overlayCount n = 0.
Proof.
  destruct n as [|e cs]; [done|]. intros Hcs%querySelector_None_inv. simpl.
  induction Hcs as [|c cs Hc _ IH]; [done|].
  simpl. by rewrite (no_match_no_overlays _ _ Hc), IH.
Qed.

(** A thumbnail container without an overlay below it has one after
    [addOverlay]. *)
Lemma addOverlay_one above e cs :
  querySelector overlaySelector above (Elem e cs) = None →
  overlayCount (addOverlay (Elem e cs)) = 1.
Proof.
  intros Hzero%no_overlay_below. unfold addOverlay.
  rewrite <- overlayCount_ensurePositioned in Hzero.
  remember (ensurePositioned (Elem e cs)) as positioned eqn:Hpos.
  assert (∃ e' , positioned = Elem e' cs) as [e' ->].
  { subst. simpl. destruct (String.eqb _ _); eauto. }
  simpl in *. rewrite map_app, sum_list_with_app, Hzero. reflexivity.
Qed.

Lemma processVideoElement_ending anc item :
  ending anc item (processVideoElement kws anc item).
Proof.
  unfold processVideoElement.
  destruct (querySelector titleSelector anc item) as [tp|] eqn:Htitle;
    [|by constructor].
  destruct (truthy _); [|by constructor].
  destruct (_ && _); [by constructor|].
  destruct (containsSpoiler _ _); [|by constructor].
  destruct (querySelector thumbnailSelector _ _) as [q|] eqn:Hthumb;
    [|by constructor].
  destruct (locate q _ _) as [[above container]|] eqn:Hloc; [|by constructor].
  case_bool_decide as Hov; [by constructor|].
  eapply ending_covered; eauto.
  destruct (querySelector overlaySelector above container) eqn:E; [|done].
  exfalso. apply Hov. eauto.
Qed.

Lemma overlaysIn_addOverlay m : overlaysIn (addOverlay m) ≤ overlaysIn m + 1.
Proof. apply overlaysIn_append_overlay. Qed.

Lemma isOverlay_addOverlay m : isOverlay (addOverlay m) = isOverlay m.
Proof.
  unfold addOverlay. by rewrite isOverlay_appendChild, isOverlay_ensurePositioned.
Qed.

(** A call adds at most one overlay to the container. *)
Lemma processVideoElement_overlayCount anc item :
  overlayCount (result (processVideoElement kws anc item))
  ≤ overlayCount item + 1.
Proof.
  destruct (processVideoElement_ending anc item); simpl; [lia| |].
  - pose proof (overlayCount_updateAt_le (setTextContent "Spoiler") 0 tp item
      (overlaysIn_setTextContent _) (isOverlay_setTextContent _)). lia.
  - pose proof (overlayCount_updateAt_le (setTextContent "Spoiler") 0 tp item
      (overlaysIn_setTextContent _) (isOverlay_setTextContent _)).
    pose proof (overlayCount_updateAt_le addOverlay 1 q
      (updateAt tp (setTextContent "Spoiler") item)
      overlaysIn_addOverlay isOverlay_addOverlay). lia.
Qed.

Lemma processVideoElement_isOverlay anc item :
  isOverlay (result (processVideoElement kws anc item)) = isOverlay item.
Proof.
  destruct (processVideoElement_ending anc item); simpl; [done|..];
    rewrite ?(isOverlay_updateAt addOverlay) by apply isOverlay_addOverlay;
    apply isOverlay_updateAt, isOverlay_setTextContent.
Qed.

Lemma singleOverlays_retitle tp item :
  singleOverlays item = true →
  singleOverlays (updateAt tp (setTextContent "Spoiler") item) = true.
Proof.
  intros Hitem. apply (singleOverlays_updateAt _ _ []); [done|].
  intros above m _ _. split; [|apply isOverlay_setTextContent].
  by destruct m.
Qed.

Lemma singleOverlays_addOverlay above container :
  querySelector overlaySelector above container = None →
  singleOverlays container = true →
  singleOverlays (addOverlay container) = true.
Proof.
  intros Hnone%no_overlay_children Hsingle.
  unfold addOverlay.
  assert (Hpos : overlayChildren (ensurePositioned container) = 0
                 ∧ singleOverlays (ensurePositioned container) = true).
  { destruct container as [|e cs]; [done|]. simpl ensurePositioned.
    by destruct (String.eqb (computedPosition e) "static"). }
  destruct Hpos as [Hzero Hsingle'].
  destruct (ensurePositioned container) as [|e cs]; [done|].
  apply singleOverlays_Elem in Hsingle' as [_ Hcs].
  cbn [appendChild]. apply singleOverlays_Elem. split.
  - unfold overlayChildren in *. rewrite filter_app, length_app, Hzero.
    reflexivity.
  - apply Forall_app. split; [done|]. by repeat constructor.
Qed.

(** A call keeps the tree free of elements with two overlay children. *)
Lemma processVideoElement_single anc item :
  singleOverlays item = true →
  singleOverlays (result (processVideoElement kws anc item)) = true.
Proof.
  intros Hitem.
  destruct (processVideoElement_ending anc item)
    as [| |tp q above container log Htitle Hthumb Hloc Hnone]; simpl; [done|..].
  - by apply singleOverlays_retitle.
  - apply (singleOverlays_updateAt _ _ anc);
      [by apply singleOverlays_retitle|].
    intros above' m Hm Hsingle. rewrite Hloc in Hm. injection Hm as <- <-.
    split; [by eapply singleOverlays_addOverlay | apply isOverlay_addOverlay].
Qed.

Lemma ensurePositioned_Elem e cs :
  ∃ e', ensurePositioned (Elem e cs) = Elem e' cs ∧ sameName e e'.
Proof.
  simpl. destruct (String.eqb (computedPosition e) "static"); eexists; by split.
Qed.

Lemma addOverlay_Elem e cs :
  ∃ e', addOverlay (Elem e cs) = Elem e' (cs ++ [overlay])%list ∧ sameName e e'.
Proof.
  unfold addOverlay. destruct (ensurePositioned_Elem e cs) as (e' & -> & Hname).
  by exists e'.
Qed.

(** *** Overlays that a search finds *)

Lemma querySelector_overlay_addOverlay above e cs :
  is_Some (querySelector overlaySelector above (addOverlay (Elem e cs))).
Proof.
  destruct (addOverlay_Elem e cs) as (e' & -> & _).
  destruct (querySelector _ _ _) eqn:Hq; [by eexists|].
  apply querySelector_None_inv, Forall_app in Hq as [_ Hlast].
  apply Forall_cons in Hlast as [Hlast _]. done.
Qed.

(** An overlay below a node of the tree is found from the root. *)
Lemma querySelector_overlay_above i p anc n above m :
  locate (i :: p) anc n = Some (above, m) →
  is_Some (querySelector overlaySelector above m) →
  is_Some (querySelector overlaySelector anc n).
Proof.
  intros Hloc Hsome.
  destruct (querySelector overlaySelector anc n) eqn:Hq; [by eexists|].
  rewrite (querySelector_None_locate _ _ _ _ _ _ _ Hq Hloc) in Hsome.
  by destruct Hsome.
Qed.

(** *** Counting overlays after an update, exactly *)




End annotator_facts.

(** * Masking one container: claims *)

Section annotator_claims.

Variable kws : list string.

Lemma locate_any p anc anc' n above m :
  locate p anc n = Some (above, m) →
  ∃ above', locate p anc' n = Some (above', m).
Proof.
  intros H. pose proof (locate_node p anc anc' n) as Hn. rewrite H in Hn.
  destruct (locate p anc' n) as [[above' m']|]; [|done].
  injection Hn as ->. by exists above'.
Qed.

(** After the overwrite the title element reads as the sentinel. *)
Lemma textContentAt_retitle anc item tp :
  querySelector titleSelector anc item = Some tp →
  textContentAt tp (updateAt tp (setTextContent "Spoiler") item) = "Spoiler".
Proof.
  intros (i & p' & above & e & cs & _ & Hloc & _)%querySelector_locate.
  destruct (locate_any _ _ [] _ _ _ Hloc) as [above' Hloc'].
  unfold textContentAt.
  by rewrite (locate_updateAt _ _ _ _ _ _ Hloc').
Qed.

Ltac enter_call Htitle :=
  unfold processVideoElement; rewrite Htitle.

(** C1. An item in the masked state (its title reads as the sentinel and
    an overlay lies below it) is left by [processVideoElement] through
    the already-masked exit: [containsSpoiler] is not called, nothing is
    logged, and the item is the same tree as before, so its title text
    and its overlays are as they were; a further call does the same. *)
Theorem masked_item_is_skipped anc item tp :
  querySelector titleSelector anc item = Some tp →
  textContentAt tp item = "Spoiler" →
  is_Some (querySelector overlaySelector anc item) →
  processVideoElement kws anc item
    = Processed SkippedAlreadyMasked item [] None
  ∧ textContentAt tp (result (processVideoElement kws anc item)) = "Spoiler"
  ∧ overlayCount (result (processVideoElement kws anc item)) = overlayCount item
  ∧ processVideoElement kws anc (result (processVideoElement kws anc item))
    = Processed SkippedAlreadyMasked item [] None.
Proof.
  intros Htitle Htext Hov.
  assert (H : processVideoElement kws anc item
              = Processed SkippedAlreadyMasked item [] None).
  { enter_call Htitle. rewrite Htext. cbn [truthy].
    rewrite String.eqb_refl, bool_decide_eq_true_2 by done. reflexivity. }
  rewrite H. cbn [result]. by rewrite H.
Qed.

(** C4, as the code has it.  When the title element is missing, or its
    text is empty, [processVideoElement] leaves through the no-title
    exit: the item is the same tree as before, [containsSpoiler] is not
    called and nothing is logged.  A title whose text is not empty, be it
    of white space only, is not skipped there: unless it reads as the
    sentinel, the matcher is called on it. *)
Theorem no_title_is_skipped anc item :
  ((querySelector titleSelector anc item = None
    ∨ ∃ tp, querySelector titleSelector anc item = Some tp
            ∧ textContentAt tp item = "") →
   processVideoElement kws anc item = Processed SkippedNoTitle item [] None)
  ∧ (∀ tp, querySelector titleSelector anc item = Some tp →
           textContentAt tp item ≠ "" →
           outcome (processVideoElement kws anc item) ≠ SkippedNoTitle
           ∧ (textContentAt tp item ≠ "Spoiler" →
              ∃ rest, events (processVideoElement kws anc item)
                      = CallContainsSpoiler (textContentAt tp item) :: rest)).
Proof.
  split.
  - intros [Htitle | (tp & Htitle & Htext)]; enter_call Htitle; [done|].
    by rewrite Htext.
  - intros tp Htitle Hne. enter_call Htitle.
    apply truthy_iff in Hne. rewrite Hne.
    assert (Hexits : ∀ res : processed,
              outcome res ≠ SkippedNoTitle →
              (∃ rest, events res
                       = CallContainsSpoiler (textContentAt tp item) :: rest) →
              outcome res ≠ SkippedNoTitle
              ∧ (textContentAt tp item ≠ "Spoiler" →
                 ∃ rest, events res
                         = CallContainsSpoiler (textContentAt tp item) :: rest))
      by done.
    destruct (String.eqb_spec (textContentAt tp item) "Spoiler") as [Heq|Hsent].
    + destruct (_ && _); [done|].
      destruct (containsSpoiler _ _); [|by apply Hexits; [|eexists]].
      destruct (querySelector thumbnailSelector _ _);
        [|by apply Hexits; [|eexists]].
      destruct (locate _ _ _) as [[]|]; [|by apply Hexits; [|eexists]].
      case_bool_decide; by apply Hexits; [|eexists].
    + cbn [andb].
      destruct (containsSpoiler _ _); [|by apply Hexits; [|eexists]].
      destruct (querySelector thumbnailSelector _ _);
        [|by apply Hexits; [|eexists]].
      destruct (locate _ _ _) as [[]|]; [|by apply Hexits; [|eexists]].
      case_bool_decide; by apply Hexits; [|eexists].
Qed.

(** C7. When the title element is there, its text is not empty and not
    the sentinel, and [containsSpoiler] rejects it, [processVideoElement]
    leaves through the no-match exit after that one call of the matcher,
    and the item is the same tree as before: same title text, no overlay
    added, no style set.  The next call therefore runs the matcher on the
    same title again. *)
Theorem no_match_leaves_item anc item tp :
  querySelector titleSelector anc item = Some tp →
  textContentAt tp item ≠ "" →
  textContentAt tp item ≠ "Spoiler" →
  containsSpoiler kws (textContentAt tp item) = false →
  processVideoElement kws anc item
    = Processed SkippedNoMatch item
        [CallContainsSpoiler (textContentAt tp item)] None
  ∧ processVideoElement kws anc (result (processVideoElement kws anc item))
    = Processed SkippedNoMatch item
        [CallContainsSpoiler (textContentAt tp item)] None.
Proof.
  intros Htitle Hne Hsent Hno.
  assert (H : processVideoElement kws anc item
              = Processed SkippedNoMatch item
                  [CallContainsSpoiler (textContentAt tp item)] None).
  { enter_call Htitle.
    apply truthy_iff in Hne. apply String.eqb_neq in Hsent.
    rewrite Hne, Hsent, Hno. reflexivity. }
  rewrite H. cbn [result]. by rewrite H.
Qed.

(** C3, as the code has it.  For an item whose title reads as the
    sentinel and that has no overlay below it, the already-masked exit is
    not taken, since it asks for both: [processVideoElement] calls
    [containsSpoiler] on the sentinel text.  When the matcher rejects the
    sentinel the item is left as it was, through the no-match exit. *)
Theorem title_only_item_is_rematched anc item tp :
  querySelector titleSelector anc item = Some tp →
  textContentAt tp item = "Spoiler" →
  querySelector overlaySelector anc item = None →
  outcome (processVideoElement kws anc item) ≠ SkippedAlreadyMasked
  ∧ (∃ rest, events (processVideoElement kws anc item)
             = CallContainsSpoiler "Spoiler" :: rest)
  ∧ (containsSpoiler kws "Spoiler" = false →
     processVideoElement kws anc item
       = Processed SkippedNoMatch item [CallContainsSpoiler "Spoiler"] None).
Proof.
  intros Htitle Htext Hnone.
  enter_call Htitle. rewrite Htext, Hnone. cbn [truthy].
  rewrite bool_decide_eq_false_2, andb_false_r by (by intros [? ?]).
  assert (Hexits : ∀ res : processed,
            outcome res ≠ SkippedAlreadyMasked →
            (∃ rest, events res = CallContainsSpoiler "Spoiler" :: rest) →
            outcome res ≠ SkippedAlreadyMasked
            ∧ (∃ rest, events res = CallContainsSpoiler "Spoiler" :: rest)
            ∧ (true = false →
               res = Processed SkippedNoMatch item
                        [CallContainsSpoiler "Spoiler"] None)) by done.
  destruct (containsSpoiler kws "Spoiler").
  - destruct (querySelector thumbnailSelector _ _);
      [|by apply Hexits; [|eexists]].
    destruct (locate _ _ _) as [[]|]; [|by apply Hexits; [|eexists]].
    case_bool_decide; by apply Hexits; [|eexists].
  - split; [done|]. split; [by eexists | done].
Qed.

(** C5. When the title is not in the masked state, [containsSpoiler]
    accepts its text and no thumbnail container lies below the item,
    [processVideoElement] overwrites the title with the sentinel and
    leaves through the masked exit: the item afterwards is the item
    before with the children of its title element replaced by the
    sentinel text, so no overlay has come in.  Every step of that path
    is defined; none of them can throw.  (The title text is not empty:
    with keywords that are non-empty strings a text that matches never
    is.) *)
Theorem title_masked_without_thumbnail anc item tp :
  querySelector titleSelector anc item = Some tp →
  textContentAt tp item ≠ "" ∨ Forall (fun keyword => keyword ≠ "") kws →
  ¬ (textContentAt tp item = "Spoiler"
     ∧ is_Some (querySelector overlaySelector anc item)) →
  containsSpoiler kws (textContentAt tp item) = true →
  querySelector thumbnailSelector anc item = None →
  processVideoElement kws anc item
    = Processed Masked (updateAt tp (setTextContent "Spoiler") item)
        [ CallContainsSpoiler (textContentAt tp item);
          ConsoleLog (spoilerMessage (textContentAt tp item)) ]
        (Some tp)
  ∧ querySelector titleSelector anc
      (result (processVideoElement kws anc item)) = Some tp
  ∧ textContentAt tp (result (processVideoElement kws anc item)) = "Spoiler"
  ∧ overlayCount (result (processVideoElement kws anc item)) ≤ overlayCount item
  ∧ querySelector thumbnailSelector anc
      (result (processVideoElement kws anc item)) = None.
Proof.
  intros Htitle Hpresent Hunmasked Hyes Hthumb.
  assert (Hne : textContentAt tp item ≠ "").
  { destruct Hpresent as [?|Hkws]; [done|]. intros Hempty.
    rewrite Hempty in Hyes. apply containsSpoiler_iff in Hyes.
    apply Exists_exists in Hyes as (k & Hin & b & part & a & Hsplit & Hpart).
    rewrite Forall_forall in Hkws. apply (Hkws k Hin).
    destruct b; [|done]. destruct part; [|done]. by inversion Hpart. }
  assert (H : processVideoElement kws anc item
    = Processed Masked (updateAt tp (setTextContent "Spoiler") item)
        [ CallContainsSpoiler (textContentAt tp item);
          ConsoleLog (spoilerMessage (textContentAt tp item)) ]
        (Some tp)).
  { enter_call Htitle. apply truthy_iff in Hne. rewrite Hne.
    destruct (_ && _) eqn:Hmasked.
    - exfalso. apply Hunmasked.
      apply andb_true_iff in Hmasked as [?%String.eqb_eq ?%bool_decide_eq_true].
      done.
    - rewrite Hyes.
      by rewrite (querySelector_None_retitle _ "Spoiler" tp _ _ Hthumb). }
  rewrite H. cbn [result]. split; [done|]. split; [|split; [|split]].
  - apply querySelector_updateAt_same; [apply setTextContent_keeps | done].
  - by eapply textContentAt_retitle.
  - pose proof (overlayCount_updateAt_le (setTextContent "Spoiler") 0 tp item
      (overlaysIn_setTextContent _) (isOverlay_setTextContent _)). lia.
  - by apply querySelector_None_retitle.
Qed.


End annotator_claims.

(** * Scanning the page: lemmas and claims *)

Section reconciler.

Variable kws : list string.

Lemma fold_left_preserves {A B} (P : A → Prop) (step : A → B → A) l a :
  (∀ a b, P a → P (step a b)) → P a → P (fold_left step l a).
Proof. intros Hstep. revert a. induction l; simpl; auto. Qed.

Lemma singleOverlays_replace r doc anc item :
  locate r [] doc = Some (anc, item) →
  singleOverlays doc = true →
  singleOverlays
    (updateAt r (fun _ => result (processVideoElement kws anc item)) doc) = true.
Proof.
  intros Hloc Hdoc. apply (singleOverlays_updateAt _ _ []); [done|].
  intros above m Hm Hsingle. rewrite Hloc in Hm. injection Hm as <- <-.
  split; [by apply processVideoElement_single | apply processVideoElement_isOverlay].
Qed.

Lemma annotateAt_single r doc :
  singleOverlays doc = true → singleOverlays (annotateAt kws r doc) = true.
Proof.
  intros Hdoc. unfold annotateAt.
  destruct (locate r [] doc) as [[anc item]|] eqn:Hloc; [|done].
  by apply singleOverlays_replace.
Qed.

Lemma visit_single st r :
  singleOverlays (page st) = true → singleOverlays (page (visit kws st r)) = true.
Proof.
  intros Hpage. unfold visit. destruct (existsb _ _); [done|].
  destruct (locate r [] (page st)) as [[anc item]|] eqn:Hloc; [|done].
  by apply singleOverlays_replace.
Qed.

Lemma scanSelector_single doc selector :
  singleOverlays doc = true → singleOverlays (scanSelector kws doc selector) = true.
Proof.
  intros Hdoc. unfold scanSelector.
  apply (fold_left_preserves (fun st => singleOverlays (page st) = true));
    [apply visit_single | done].
Qed.

Lemma processAllVideoElements_single doc :
  singleOverlays doc = true →
  singleOverlays (processAllVideoElements kws doc) = true.
Proof.
  apply (fold_left_preserves (fun d => singleOverlays d = true)).
  intros d sel. apply scanSelector_single.
Qed.

Lemma perform_single w c :
  singleOverlays (document w) = true →
  singleOverlays (document (perform kws w c)) = true.
Proof.
  destruct c as [r| |mutations]; simpl.
  - apply annotateAt_single.
  - apply processAllVideoElements_single.
  - unfold observerCallback. destruct (fold_left _ mutations false); [|done].
    apply processAllVideoElements_single.
Qed.

(** A tree without overlays has no element with two overlay children. *)
Lemma no_overlays_single n : overlaysIn n = 0 → singleOverlays n = true.
Proof.
  induction n as [|e cs IH] using node_ind; [done|].
  intros Hzero. apply singleOverlays_Elem.
  assert (Hcs : Forall (fun c => overlaysIn c = 0) cs).
  { simpl in Hzero. assert (Hsum : sum_list (map overlaysIn cs) = 0) by lia.
    clear -Hsum. induction cs as [|c cs IHcs]; [constructor|].
    simpl in Hsum. constructor; [lia | apply IHcs; lia]. }
  split.
  - simpl. clear -Hcs. induction Hcs as [|c cs Hc _ IHcs]; [simpl; lia|].
    rewrite filter_cons. destruct (decide _) as [Hov|]; [|done].
    rewrite overlaysIn_unfold, Hov in Hc. lia.
  - clear -IH Hcs. induction Hcs as [|c cs Hc _ IHcs]; [constructor|].
    apply Forall_cons in IH as [Hhead Htail]. constructor; auto.
Qed.

(** The flag the callback computes says whether some record of the batch
    has an added node. *)
Lemma newContentAdded_iff (mutations : list MutationRecord) flag :
  fold_left (fun flag mutation =>
               if (0 <? length (addedNodes mutation)) then true else flag)
            mutations flag = true ↔
  flag = true ∨ Exists (fun mutation => addedNodes mutation ≠ []) mutations.
Proof.
  revert flag. induction mutations as [|m ms IH]; intros flag; simpl.
  - rewrite Exists_nil. tauto.
  - rewrite IH, Exists_cons. destruct (addedNodes m) as [|x xs]; simpl.
    + split; [intros [?|?]; auto | intros [?|[?|?]]; auto; done].
    + split; [intros _; right; left; done | auto].
Qed.

Lemma singleOverlays_children n :
  singleOverlays n = true → overlayChildren n ≤ 1.
Proof.
  destruct n as [|e cs]; [simpl; lia|]. by intros [? _]%singleOverlays_Elem.
Qed.

(** C6. A call of [processVideoElement] adds at most one overlay to the
    item, and it appends one only to a thumbnail container that has no
    overlay below it (the third ending), which then has exactly one.
    Hence, on a page where no element has two overlay children, and a page
    without overlays is one, every sequence of calls of
    [processVideoElement], of [processAllVideoElements] and of the observer
    callback leaves a page where no element has two overlay children; in
    particular the thumbnail container of every item has at most one. *)
Theorem at_most_one_overlay :
  (∀ anc item,
     overlayCount (result (processVideoElement kws anc item))
     ≤ overlayCount item + 1)
  ∧ (∀ anc item, ending anc item (processVideoElement kws anc item))
  ∧ (∀ above e cs,
       querySelector overlaySelector above (Elem e cs) = None →
       overlayCount (addOverlay (Elem e cs)) = 1)
  ∧ (∀ calls w,
       overlaysIn (document w) = 0 ∨ singleOverlays (document w) = true →
       singleOverlays (document (fold_left (perform kws) calls w)) = true
       ∧ ∀ r anc item q above container,
           locate r [] (document (fold_left (perform kws) calls w))
             = Some (anc, item) →
           querySelector thumbnailSelector anc item = Some q →
           locate q anc item = Some (above, container) →
           overlayChildren container ≤ 1).
Proof.
  split; [apply processVideoElement_overlayCount|].
  split; [apply processVideoElement_ending|].
  split; [apply addOverlay_one|].
  intros calls w Hstart.
  assert (Hw : singleOverlays (document w) = true).
  { destruct Hstart; [by apply no_overlays_single | done]. }
  assert (Hend : singleOverlays (document (fold_left (perform kws) calls w)) = true).
  { apply (fold_left_preserves (fun w => singleOverlays (document w) = true));
      [apply perform_single | done]. }
  split; [done|]. intros r anc item q above container Hitem _ Hcontainer.
  apply singleOverlays_children.
  eapply singleOverlays_locate; [|exact Hcontainer].
  eapply singleOverlays_locate; [|exact Hitem]. done.
Qed.

(** C8. The observer callback calls [processAllVideoElements] once when
    some record of the batch has an added node, however many records and
    nodes there are, and does not call it when no record has one. *)
Theorem one_scan_per_batch (mutations : list MutationRecord) (w : world) :
  (Exists (fun mutation => addedNodes mutation ≠ []) mutations →
   observerCallback kws mutations w = scanAll kws w
   ∧ scans (observerCallback kws mutations w) = scans w + 1)
  ∧ (Forall (fun mutation => addedNodes mutation = []) mutations →
     observerCallback kws mutations w = w
     ∧ scans (observerCallback kws mutations w) = scans w).
Proof.
  unfold observerCallback. split.
  - intros Hadded.
    rewrite (proj2 (newContentAdded_iff mutations false)) by auto.
    split; [done|]. simpl. lia.
  - intros Hnone.
    destruct (fold_left _ mutations false) eqn:Hflag; [|done].
    apply newContentAdded_iff in Hflag as [?|Hsome]; [done|].
    exfalso. apply Exists_exists in Hsome as (m & Hin & Hm).
    rewrite Forall_forall in Hnone. by apply Hm, Hnone.
Qed.

End reconciler.

(** * The claims on sample pages *)

Section on_samples.

Import Samples.

Lemma masked_item_is_skipped_witness :
  processVideoElement ["finale"] [] maskedCard
    = Processed SkippedAlreadyMasked maskedCard [] None
  ∧ textContentAt [1] (result (processVideoElement ["finale"] [] maskedCard))
    = "Spoiler"
  ∧ overlayCount (result (processVideoElement ["finale"] [] maskedCard))
    = overlayCount maskedCard
  ∧ processVideoElement ["finale"] []
      (result (processVideoElement ["finale"] [] maskedCard))
    = Processed SkippedAlreadyMasked maskedCard [] None.
Proof.
  apply (masked_item_is_skipped ["finale"] [] maskedCard [1]).
  - reflexivity.
  - reflexivity.
  - eexists. reflexivity.
Defined.

(** C3 as stated fails: the card's title reads as the sentinel and the
    card has no overlay, and the call runs the matcher on the sentinel text
    instead of leaving through the already-masked exit. *)
Lemma title_only_item_counterexample :
  querySelector titleSelector [] (bareCard "Spoiler") = Some [0]
  ∧ textContentAt [0] (bareCard "Spoiler") = "Spoiler"
  ∧ querySelector overlaySelector [] (bareCard "Spoiler") = None
  ∧ events (processVideoElement ["finale"] [] (bareCard "Spoiler"))
    = [CallContainsSpoiler "Spoiler"]
  ∧ outcome (processVideoElement ["finale"] [] (bareCard "Spoiler"))
    ≠ SkippedAlreadyMasked.
Proof. repeat split; try reflexivity. discriminate. Qed.

Lemma title_only_item_is_rematched_witness :
  outcome (processVideoElement ["finale"] [] (bareCard "Spoiler"))
    ≠ SkippedAlreadyMasked
  ∧ (∃ rest, events (processVideoElement ["finale"] [] (bareCard "Spoiler"))
             = CallContainsSpoiler "Spoiler" :: rest)
  ∧ (containsSpoiler ["finale"] "Spoiler" = false →
     processVideoElement ["finale"] [] (bareCard "Spoiler")
       = Processed SkippedNoMatch (bareCard "Spoiler")
           [CallContainsSpoiler "Spoiler"] None).
Proof.
  apply (title_only_item_is_rematched ["finale"] [] (bareCard "Spoiler") [0]);
    reflexivity.
Defined.

(** C4 as stated fails on a title of white space only: the call runs the
    matcher on it and leaves through the no-match exit; with a keyword of
    white space the title is even overwritten. *)
Lemma blank_title_counterexample :
  querySelector titleSelector [] (bareCard "   ") = Some [0]
  ∧ blank (textContentAt [0] (bareCard "   ")) = true
  ∧ processVideoElement ["finale"] [] (bareCard "   ")
    = Processed SkippedNoMatch (bareCard "   ") [CallContainsSpoiler "   "] None
  ∧ outcome (processVideoElement ["finale"] [] (bareCard "   ")) ≠ SkippedNoTitle
  ∧ result (processVideoElement [" "] [] (bareCard "   ")) = bareCard "Spoiler".
Proof. repeat split; try reflexivity. discriminate. Qed.

Lemma no_title_is_skipped_witness :
  processVideoElement ["finale"] [] untitledCard
    = Processed SkippedNoTitle untitledCard [] None
  ∧ processVideoElement ["finale"] [] (bareCard "")
    = Processed SkippedNoTitle (bareCard "") [] None
  ∧ outcome (processVideoElement ["finale"] [] (bareCard "   ")) ≠ SkippedNoTitle.
Proof.
  split; [|split].
  - apply (no_title_is_skipped ["finale"] [] untitledCard). left. reflexivity.
  - apply (no_title_is_skipped ["finale"] [] (bareCard "")). right.
    exists [0]. split; reflexivity.
  - apply (proj2 (no_title_is_skipped ["finale"] [] (bareCard "   ")) [0]).
    + reflexivity.
    + discriminate.
Defined.

Lemma title_masked_without_thumbnail_witness :
  processVideoElement ["finale"] [] (bareCard "The finale explained")
    = Processed Masked (bareCard "Spoiler")
        [ CallContainsSpoiler "The finale explained";
          ConsoleLog (spoilerMessage "The finale explained") ]
        (Some [0]).
Proof.
  apply (title_masked_without_thumbnail ["finale"] []
           (bareCard "The finale explained") [0]).
  - reflexivity.
  - left. discriminate.
  - intros [Hsentinel _]. discriminate Hsentinel.
  - reflexivity.
  - reflexivity.
Defined.

Lemma no_match_leaves_item_witness :
  processVideoElement ["finale"] [] (card "Cooking pasta")
    = Processed SkippedNoMatch (card "Cooking pasta")
        [CallContainsSpoiler "Cooking pasta"] None.
Proof.
  apply (no_match_leaves_item ["finale"] [] (card "Cooking pasta") [1]).
  - reflexivity.
  - discriminate.
  - discriminate.
  - reflexivity.
Defined.


Lemma at_most_one_overlay_witness :
  singleOverlays
    (document (fold_left (perform ["finale"])
                 [ScanAll; Annotate [0; 0]; Notify batch] (World listing 0))) = true.
Proof.
  destruct (at_most_one_overlay ["finale"]) as (_ & _ & _ & Hpage).
  apply (Hpage [ScanAll; Annotate [0; 0]; Notify batch] (World listing 0)).
  left. reflexivity.
Defined.

Lemma one_scan_per_batch_witness :
  scans (observerCallback ["finale"] batch (World listing 0)) = 1
  ∧ scans (observerCallback ["finale"] removals (World listing 0)) = 0.
Proof.
  split.
  - apply (one_scan_per_batch ["finale"] batch (World listing 0)).
    right. left. discriminate.
  - apply (one_scan_per_batch ["finale"] removals (World listing 0)).
    repeat constructor.
Defined.

End on_samples.

(** * More on the matcher *)

Section matcher_more.

Lemma containsSpoiler_In (kws : list string) (text : string) :
  containsSpoiler kws text = true ↔
  ∃ keyword, keyword ∈ kws
             ∧ includes (toLowerCase text) (toLowerCase keyword) = true.
Proof.
  unfold containsSpoiler. rewrite existsb_exists.
  by setoid_rewrite list_elem_of_In.
Qed.

(** X1. The answer of [containsSpoiler] depends on which keywords the list
    holds, not on their order or on repetitions, and a list put together
    from two lists matches what either of them matches. *)
Theorem keywords_as_a_set (kws kws' : list string) (text : string) :
  containsSpoiler (kws ++ kws') text
    = containsSpoiler kws text || containsSpoiler kws' text
  ∧ ((∀ keyword, keyword ∈ kws ↔ keyword ∈ kws') →
     containsSpoiler kws text = containsSpoiler kws' text).
Proof.
  split; [apply existsb_app|]. intros Hsame.
  apply eq_true_iff_eq. rewrite !containsSpoiler_In.
  split; intros (k & Hin & Hk); exists k; (split; [by apply Hsame | done]).
Qed.

End matcher_more.

(** * More on the document tree *)

Section tree_more.

Lemma matchesSimple_sameName s e e' :
  sameName e e' → matchesSimple s e = matchesSimple s e'.
Proof. intros (Htag & Hid & Hclass). destruct s; simpl; congruence. Qed.

Lemma matches_sameName sel anc anc' e e' :
  Forall2 sameName anc anc' → sameName e e' →
  matches sel anc e = matches sel anc' e'.
Proof.
  intros Hanc He. unfold matches.
  induction sel as [|c sel IH]; [done|]. simpl. rewrite IH. f_equal.
  destruct c as [s|a s]; simpl; rewrite (matchesSimple_sameName _ _ _ He);
    [done|]. f_equal.
  clear -Hanc. induction Hanc as [|x y anc anc' Hxy _ IH]; [done|].
  simpl. by rewrite IH, (matchesSimple_sameName _ _ _ Hxy).
Qed.

Lemma sameName_refl e : sameName e e.
Proof. done. Qed.

Lemma Forall2_sameName_refl anc : Forall2 sameName anc anc.
Proof. induction anc; constructor; [apply sameName_refl | done]. Qed.

Lemma firstIn_ext {A} (f g : A → option path) i l :
  Forall (fun c => f c = g c) l → firstIn f i l = firstIn g i l.
Proof.
  intros Hl. revert i. induction Hl as [|c l Hc _ IH]; intros i; [done|].
  simpl. rewrite Hc. destruct (g c); [done | apply IH].
Qed.

Lemma firstIn_app_None {A} (f : A → option path) i l extra :
  Forall (fun c => f c = None) extra →
  firstIn f i (l ++ extra)%list = firstIn f i l.
Proof.
  intros Hextra. revert i. induction l as [|c l IH]; intros i; simpl.
  - by apply firstIn_None.
  - destruct (f c); [done | apply IH].
Qed.

(** A search sees the elements above a node by their names only. *)
Lemma firstMatch_sameName sel n anc anc' :
  Forall2 sameName anc anc' → firstMatch sel anc n = firstMatch sel anc' n.
Proof.
  revert anc anc'. induction n as [|e cs IH] using node_ind;
    intros anc anc' Hanc; [done|].
  simpl. rewrite (matches_sameName sel anc anc' e e Hanc (sameName_refl e)).
  destruct (matches sel anc' e); [done|].
  apply firstIn_ext. eapply Forall_impl; [exact IH|].
  intros c Hc. apply Hc. constructor; [apply sameName_refl | done].
Qed.

(** An update that no search can see where it acts is seen by no search
    of the tree. *)
Lemma firstMatch_updateAt_unseen sel f :
  (∀ anc n, firstMatch sel anc (f n) = firstMatch sel anc n) →
  ∀ p anc n, firstMatch sel anc (updateAt p f n) = firstMatch sel anc n.
Proof.
  intros Hf. induction p as [|i p IH]; intros anc n; [apply Hf|].
  destruct n as [|e cs]; [done|]. cbn [updateAt firstMatch].
  destruct (matches sel anc e); [done|].
  generalize 0. revert i. induction cs as [|c cs IHcs]; intros [|i] k; try done.
  - simpl. by rewrite IH.
  - change (alter (updateAt p f) (S i) (c :: cs))
      with (c :: alter (updateAt p f) i cs).
    simpl. destruct (firstMatch sel (e :: anc) c); [done | apply IHcs].
Qed.

Lemma querySelector_updateAt_unseen sel f i p anc n :
  (∀ anc n, firstMatch sel anc (f n) = firstMatch sel anc n) →
  querySelector sel anc (updateAt (i :: p) f n) = querySelector sel anc n.
Proof.
  intros Hf. destruct n as [|e cs]; [done|]. cbn [updateAt querySelector].
  generalize 0. revert i. induction cs as [|c cs IHcs]; intros [|i] k; try done.
  - simpl. by rewrite firstMatch_updateAt_unseen.
  - change (alter (updateAt p f) (S i) (c :: cs))
      with (c :: alter (updateAt p f) i cs).
    simpl. destruct (firstMatch sel (e :: anc) c); [done | apply IHcs].
Qed.

(** The overlay is seen by no search that does not see it itself. *)
Lemma firstMatch_addOverlay sel :
  (∀ anc, firstMatch sel anc overlay = None) →
  ∀ anc n, firstMatch sel anc (addOverlay n) = firstMatch sel anc n.
Proof.
  intros Hoverlay anc [d|e cs]; [done|].
  destruct (addOverlay_Elem e cs) as (e' & -> & Hname). cbn [firstMatch].
  rewrite <- (matches_sameName sel anc anc e e' (Forall2_sameName_refl anc) Hname).
  destruct (matches sel anc e); [done|].
  rewrite firstIn_app_None by (by repeat constructor).
  apply firstIn_ext, Forall_forall. intros c _. apply firstMatch_sameName.
  constructor; [|apply Forall2_sameName_refl].
  destruct Hname as (? & ? & ?). by repeat split.
Qed.

Lemma firstMatch_title_overlay anc : firstMatch titleSelector anc overlay = None.
Proof. reflexivity. Qed.

Lemma firstMatch_thumbnail_overlay anc :
  firstMatch thumbnailSelector anc overlay = None.
Proof. reflexivity. Qed.

(** *** References after an update *)

Lemma locate_app (p r : path) anc n :
  locate (p ++ r)%list anc n = locate p anc n ≫= (fun am => locate r am.1 am.2).
Proof.
  revert anc n. induction p as [|i p IH]; intros anc n; [done|].
  destruct n as [|e cs]; [done|]. simpl.
  destruct (cs !! i) as [c|]; simpl; [apply IH | done].
Qed.

(** An update that only appends children where it acts leaves every node
    that is not above that place, and not that place itself, as it was. *)
Lemma locate_updateAt_off f :
  (∀ d, f (Text d) = Text d) →
  (∀ e cs, ∃ e' extra, f (Elem e cs) = Elem e' (cs ++ extra)%list) →
  ∀ p q anc n above m,
    locate p anc n = Some (above, m) →
    ¬ p `prefix_of` q →
    ∃ above', locate p anc (updateAt q f n) = Some (above', m).
Proof.
  intros HText HElem. induction p as [|i p IH]; intros q anc n above m Hloc Hoff.
  - exfalso. apply Hoff. by exists q.
  - destruct n as [|e cs]; [done|]. simpl in Hloc.
    destruct (cs !! i) as [c|] eqn:Hc; simpl in Hloc; [|done].
    destruct q as [|j q].
    + simpl. destruct (HElem e cs) as (e' & extra & ->). simpl.
      rewrite lookup_app_l by (by eapply lookup_lt_Some). rewrite Hc. simpl.
      destruct (locate_any p (e :: anc) (e' :: anc) c above m Hloc) as [a' Ha'].
      by exists a'.
    + simpl. destruct (decide (i = j)) as [->|Hne].
      * rewrite list_lookup_alter_eq, Hc. simpl.
        apply (IH q (e :: anc) c above m Hloc).
        intros Hpre. apply Hoff. by apply prefix_cons.
      * rewrite list_lookup_alter_ne by done. rewrite Hc. simpl. by exists above.
Qed.

(** Replacing a node by itself changes nothing. *)
Lemma updateAt_same p anc n above m :
  locate p anc n = Some (above, m) → updateAt p (fun _ => m) n = n.
Proof.
  revert anc n. induction p as [|i p IH]; intros anc n; simpl.
  - by intros [= _ ->].
  - destruct n as [|e cs]; [done|].
    destruct (cs !! i) as [c|] eqn:Hc; simpl; [|done]. intros Hloc.
    f_equal. apply list_eq. intros k.
    destruct (decide (i = k)) as [<-|Hne].
    + rewrite list_lookup_alter_eq, Hc. simpl. f_equal. by eapply IH.
    + by rewrite list_lookup_alter_ne.
Qed.

(** *** Inline style *)



End tree_more.

(** * More on masking one container *)

Section annotator_more.

Variable kws : list string.

Lemma already_masked_exit anc item tp :
  querySelector titleSelector anc item = Some tp →
  textContentAt tp item = "Spoiler" →
  is_Some (querySelector overlaySelector anc item) →
  processVideoElement kws anc item = Processed SkippedAlreadyMasked item [] None.
Proof.
  intros Htitle Htext Hov. unfold processVideoElement.
  rewrite Htitle, Htext. cbn [truthy].
  by rewrite String.eqb_refl, bool_decide_eq_true_2.
Qed.

(** How a call that overwrites the title goes on: the thumbnail container
    below the retitled item either has an overlay and is left, or has none
    and gets one. *)
Lemma masked_result anc item tp q above container :
  querySelector titleSelector anc item = Some tp →
  outcome (processVideoElement kws anc item) = Masked →
  querySelector thumbnailSelector anc
    (updateAt tp (setTextContent "Spoiler") item) = Some q →
  locate q anc (updateAt tp (setTextContent "Spoiler") item)
    = Some (above, container) →
  (is_Some (querySelector overlaySelector above container)
   ∧ result (processVideoElement kws anc item)
     = updateAt tp (setTextContent "Spoiler") item)
  ∨ (querySelector overlaySelector above container = None
     ∧ result (processVideoElement kws anc item)
       = updateAt q addOverlay (updateAt tp (setTextContent "Spoiler") item)).
Proof.
  intros Htitle Hmasked Hthumb Hloc. revert Hmasked.
  unfold processVideoElement. rewrite Htitle.
  destruct (truthy _); [|done]. destruct (_ && _); [done|].
  destruct (containsSpoiler _ _); [|done]. rewrite Hthumb, Hloc.
  intros _. case_bool_decide as Hov; [by left|]. right. split; [|done].
  destruct (querySelector overlaySelector above container); [|done].
  exfalso. apply Hov. by eexists.
Qed.

Lemma addOverlay_appends e cs :
  ∃ e' extra, addOverlay (Elem e cs) = Elem e' (cs ++ extra)%list.
Proof. destruct (addOverlay_Elem e cs) as (e' & H & _). by exists e', [overlay]. Qed.

(** The title element of a retitled item holds the sentinel text only, so
    no element lies below it. *)
Lemma retitled_title_is_leaf anc item tp q above e cs :
  querySelector titleSelector anc item = Some tp →
  locate q anc (updateAt tp (setTextContent "Spoiler") item)
    = Some (above, Elem e cs) →
  q ≠ tp →
  ¬ tp `prefix_of` q.
Proof.
  intros (i & p' & at_ & et & cst & _ & Hloc & _)%querySelector_locate Hq Hne.
  intros [k ->]. destruct k as [|j k]; [by rewrite app_nil_r in Hne|].
  rewrite locate_app, (locate_updateAt _ _ _ _ _ _ Hloc) in Hq. simpl in Hq.
  destruct j; simpl in Hq; [|done]. by destruct k.
Qed.

(** X4. A call changes nothing without a match: when the item has no
    title element, or [containsSpoiler] rejects the text of its title
    element, the item is the same tree afterwards, no title is overwritten
    and nothing is written to the console. *)
Theorem unmatched_item_untouched anc item :
  (∀ tp, querySelector titleSelector anc item = Some tp →
         containsSpoiler kws (textContentAt tp item) = false) →
  result (processVideoElement kws anc item) = item
  ∧ overwrote (processVideoElement kws anc item) = None
  ∧ outcome (processVideoElement kws anc item) ≠ Masked
  ∧ ∀ message, ConsoleLog message ∉ events (processVideoElement kws anc item).
Proof.
  intros Hno. unfold processVideoElement.
  destruct (querySelector titleSelector anc item) as [tp|] eqn:Htitle.
  - rewrite (Hno tp eq_refl).
    destruct (truthy _); [destruct (_ && _)|]; cbn;
      repeat split; try done; intros message Hin;
      repeat (apply elem_of_cons in Hin as [?|Hin]; [done|]);
      by apply elem_of_nil in Hin.
  - cbn. repeat split; try done. intros message Hin. by apply elem_of_nil in Hin.
Qed.

(** X5. Full masking.  When the title is not in the masked state, its text
    is not empty and [containsSpoiler] accepts it, and the thumbnail
    container found after the overwrite has no overlay below it, the call
    overwrites the title and hands the container to [addOverlay]: the item
    afterwards has the same thumbnail container, with exactly one overlay
    below it, and an overlay is found from the item. *)
Theorem matching_item_gets_overlay anc item tp q above container :
  querySelector titleSelector anc item = Some tp →
  textContentAt tp item ≠ "" →
  ¬ (textContentAt tp item = "Spoiler"
     ∧ is_Some (querySelector overlaySelector anc item)) →
  containsSpoiler kws (textContentAt tp item) = true →
  querySelector thumbnailSelector anc
    (updateAt tp (setTextContent "Spoiler") item) = Some q →
  locate q anc (updateAt tp (setTextContent "Spoiler") item)
    = Some (above, container) →
  querySelector overlaySelector above container = None →
  processVideoElement kws anc item
    = Processed Masked
        (updateAt q addOverlay (updateAt tp (setTextContent "Spoiler") item))
        [ CallContainsSpoiler (textContentAt tp item);
          ConsoleLog (spoilerMessage (textContentAt tp item)) ]
        (Some tp)
  ∧ locate q anc (result (processVideoElement kws anc item))
    = Some (above, addOverlay container)
  ∧ overlayCount (addOverlay container) = 1
  ∧ querySelector thumbnailSelector anc
      (result (processVideoElement kws anc item)) = Some q
  ∧ is_Some (querySelector overlaySelector anc
               (result (processVideoElement kws anc item))).
Proof.
  intros Htitle Hne Hunmasked Hyes Hthumb Hloc Hnone.
  pose proof Hthumb as (i & q' & above' & e & cs & -> & Hloc' & _)%querySelector_locate.
  rewrite Hloc in Hloc'. injection Hloc' as <- ->.
  assert (H : processVideoElement kws anc item
    = Processed Masked
        (updateAt (i :: q') addOverlay
           (updateAt tp (setTextContent "Spoiler") item))
        [ CallContainsSpoiler (textContentAt tp item);
          ConsoleLog (spoilerMessage (textContentAt tp item)) ]
        (Some tp)).
  { unfold processVideoElement. rewrite Htitle.
    apply truthy_iff in Hne. rewrite Hne.
    destruct (_ && _) eqn:Hmasked.
    - exfalso. apply Hunmasked.
      by apply andb_true_iff in Hmasked as [?%String.eqb_eq ?%bool_decide_eq_true].
    - rewrite Hyes, Hthumb, Hloc, Hnone.
      by rewrite bool_decide_eq_false_2 by (by intros [? ?]). }
  rewrite H. cbn [result].
  pose proof (locate_updateAt _ addOverlay _ _ _ _ Hloc) as Hafter.
  split; [done|]. split; [done|]. split; [by eapply addOverlay_one|]. split.
  - rewrite querySelector_updateAt_unseen; [done|].
    apply firstMatch_addOverlay, firstMatch_thumbnail_overlay.
  - eapply querySelector_overlay_above; [exact Hafter|].
    apply querySelector_overlay_addOverlay.
Qed.

(** X6. Masking is stable.  After a call that masked an item whose
    thumbnail container is not the title element itself, the item is in
    the masked state: the next call leaves through the already-masked exit
    and changes nothing. *)
Theorem masked_item_then_skipped anc item tp q :
  querySelector titleSelector anc item = Some tp →
  outcome (processVideoElement kws anc item) = Masked →
  querySelector thumbnailSelector anc
    (updateAt tp (setTextContent "Spoiler") item) = Some q →
  q ≠ tp →
  processVideoElement kws anc (result (processVideoElement kws anc item))
  = Processed SkippedAlreadyMasked
      (result (processVideoElement kws anc item)) [] None.
Proof.
  intros Htitle Hmasked Hthumb Hne.
  pose proof Hthumb as (i & q' & above & e & cs & -> & Hloc & _)%querySelector_locate.
  assert (Hslot : querySelector titleSelector anc
                    (updateAt tp (setTextContent "Spoiler") item) = Some tp).
  { apply querySelector_updateAt_same; [apply setTextContent_keeps | done]. }
  pose proof (textContentAt_retitle anc item tp Htitle) as Htext.
  destruct (masked_result anc item tp (i :: q') above (Elem e cs)
              Htitle Hmasked Hthumb Hloc) as [[Hov ->]|[Hnone ->]].
  - apply (already_masked_exit _ _ tp); [done..|].
    by eapply querySelector_overlay_above.
  - apply (already_masked_exit _ _ tp).
    + rewrite querySelector_updateAt_unseen; [done|].
      apply firstMatch_addOverlay, firstMatch_title_overlay.
    + unfold textContentAt in *.
      destruct (locate tp [] (updateAt tp (setTextContent "Spoiler") item))
        as [[at_ title]|] eqn:Htp; [|done].
      destruct (locate_updateAt_off addOverlay (fun _ => eq_refl)
                  addOverlay_appends tp (i :: q') [] _ at_ title Htp)
        as [at' ->]; [|done].
      by eapply (retitled_title_is_leaf anc item tp (i :: q')).
    + eapply querySelector_overlay_above;
        [exact (locate_updateAt _ addOverlay _ _ _ _ Hloc)|].
      apply querySelector_overlay_addOverlay.
Qed.

(** X7. A call works below the container only: the container element
    itself, with its tag, its classes and its style, and the number of its
    children are as before. *)
Theorem container_element_kept anc e cs :
  ∃ cs', result (processVideoElement kws anc (Elem e cs)) = Elem e cs'
         ∧ length cs' = length cs.
Proof.
  destruct (processVideoElement_ending kws anc (Elem e cs))
    as [o log _|tp log Htitle|tp q above container log Htitle Hthumb _ _];
    cbn [result].
  - by exists cs.
  - apply querySelector_locate in Htitle as (i & p' & _ & _ & _ & -> & _).
    eexists. split; [reflexivity|]. apply length_alter.
  - apply querySelector_locate in Htitle as (i & p' & _ & _ & _ & -> & _).
    apply querySelector_locate in Hthumb as (j & q' & _ & _ & _ & -> & _).
    eexists. split; [reflexivity|]. by rewrite !length_alter.
Qed.


End annotator_more.

(** * More on scanning the page *)

Section reconciler_more.

Variable kws : list string.

Lemma rejected_item_untouched anc item :
  (∀ text, containsSpoiler kws text = false) →
  result (processVideoElement kws anc item) = item
  ∧ overwrote (processVideoElement kws anc item) = None.
Proof.
  intros Hno. unfold processVideoElement.
  destruct (querySelector titleSelector anc item); [|done].
  rewrite Hno. destruct (truthy _); [|done]. by destruct (_ && _).
Qed.

Lemma visit_rejected st r :
  (∀ text, containsSpoiler kws text = false) → visit kws st r = st.
Proof.
  intros Hno. unfold visit. destruct (existsb _ _); [done|].
  destruct (locate r [] (page st)) as [[anc item]|] eqn:Hloc; [|done].
  destruct (rejected_item_untouched anc item Hno) as [-> ->].
  rewrite (updateAt_same _ _ _ _ _ Hloc). by destruct st.
Qed.

Lemma fold_left_fixed {A B} (step : A → B → A) l a :
  (∀ b, b ∈ l → step a b = a) → fold_left step l a = a.
Proof.
  induction l as [|b l IH]; intros Hstep; [done|]. simpl.
  rewrite Hstep by left. apply IH. intros b' Hb'. apply Hstep. by right.
Qed.

(** X10. A scan with keywords that match nothing, the empty keyword list
    for one, leaves the whole page as it is; so does the observer
    callback, whatever the batch. *)
Theorem scan_without_match (doc : node) (mutations : list MutationRecord) (n : nat) :
  (∀ text, containsSpoiler kws text = false) →
  processAllVideoElements kws doc = doc
  ∧ document (observerCallback kws mutations (World doc n)) = doc.
Proof.
  intros Hno.
  assert (Hscan : processAllVideoElements kws doc = doc).
  { apply fold_left_fixed. intros sel _. unfold scanSelector.
    rewrite fold_left_fixed; [done|]. intros r _. by apply visit_rejected. }
  split; [done|]. unfold observerCallback.
  by destruct (fold_left _ mutations false).
Qed.

Lemma allIn_nil {A} (f : A → list path) i l :
  Forall (fun c => f c = []) l → allIn f i l = [].
Proof.
  intros Hl. revert i. induction Hl as [|c l Hc _ IH]; intros i; [done|].
  simpl. by rewrite Hc, IH.
Qed.

Lemma no_container_no_match sel anc n :
  sel ∈ videoSelectors →
  noVideoContainer n = true →
  allMatches [Simple (TypeSel sel)] anc n = [].
Proof.
  intros Hsel. revert anc. induction n as [|e cs IH] using node_ind;
    intros anc; [done|].
  cbn [noVideoContainer]. intros [Htag Hcs]%andb_true_iff.
  cbn [allMatches]. rewrite allIn_nil.
  - assert (Hno : matches [Simple (TypeSel sel)] anc e = false); [|by rewrite Hno].
    unfold matches. cbn [existsb matchesComplex matchesSimple].
    rewrite orb_false_r. apply negb_true_iff in Htag.
    destruct (String.eqb (tagName e) sel) eqn:E; [|done].
    rewrite <- Htag. symmetry. apply existsb_exists. exists sel.
    split; [by apply list_elem_of_In | done].
  - rewrite forallb_forall in Hcs. rewrite Forall_forall in IH |- *.
    intros c Hc. apply IH; [done|]. by apply Hcs, list_elem_of_In.
Qed.

(** X11. On a page without video containers a scan finds nothing to visit
    and leaves the page as it is. *)
Theorem scan_without_containers (doc : node) :
  noVideoContainer doc = true →
  processAllVideoElements kws doc = doc.
Proof.
  intros Hnone. apply fold_left_fixed. intros sel Hsel.
  unfold scanSelector, querySelectorAll.
  by rewrite (no_container_no_match sel [] doc Hsel Hnone).
Qed.

Lemma overlaysIn_replace_le r anc n above m m' d :
  locate r anc n = Some (above, m) →
  overlaysIn m' ≤ overlaysIn m + d →
  overlaysIn (updateAt r (fun _ => m') n) ≤ overlaysIn n + d.
Proof.
  revert anc n. induction r as [|i r IH]; intros anc n; simpl.
  - by intros [= _ ->].
  - destruct n as [|e cs]; [done|].
    destruct (cs !! i) as [c|] eqn:Hc; simpl; [|done]. intros Hloc Hle.
    pose proof (sum_list_alter_le overlaysIn (updateAt r (fun _ => m')) d i cs) as H.
    cbn [overlaysIn isOverlay].
    assert (Hsum : sum_list (map overlaysIn (alter (updateAt r (fun _ => m')) i cs))
                   ≤ sum_list (map overlaysIn cs) + d).
    { apply H. intros c' Hc'. rewrite Hc in Hc'. injection Hc' as <-.
      by eapply IH. }
    clear H IH. lia.
Qed.

Lemma processVideoElement_overlaysIn anc item :
  overlaysIn (result (processVideoElement kws anc item)) ≤ overlaysIn item + 1.
Proof.
  rewrite !overlaysIn_unfold, processVideoElement_isOverlay.
  pose proof (processVideoElement_overlayCount kws anc item). lia.
Qed.

Lemma visit_overlaysIn st r :
  overlaysIn (page (visit kws st r)) ≤ overlaysIn (page st) + 1.
Proof.
  unfold visit. destruct (existsb _ _); [lia|].
  destruct (locate r [] (page st)) as [[anc item]|] eqn:Hloc; [|lia].
  cbn [page]. eapply overlaysIn_replace_le; [exact Hloc|].
  apply processVideoElement_overlaysIn.
Qed.

(** X12. One pass of a scan, over the containers of one tag name, adds at
    most one overlay for each container on its list. *)
Theorem pass_adds_one_overlay_per_container (doc : node) (selector : string) :
  overlaysIn (scanSelector kws doc selector)
  ≤ overlaysIn doc
    + length (querySelectorAll [Simple (TypeSel selector)] doc).
Proof.
  unfold scanSelector.
  generalize (querySelectorAll [Simple (TypeSel selector)] doc) as visits.
  change doc with (page (ScanState doc [])) at 2.
  generalize (ScanState doc []) as st.
  intros st visits. revert st.
  induction visits as [|r visits IH]; intros st; simpl; [lia|].
  pose proof (IH (visit kws st r)). pose proof (visit_overlaysIn st r). lia.
Qed.

End reconciler_more.

(** * Calling twice *)

Section twice.

Variable kws : list string.

(** Two updates at one place are one update. *)
Lemma updateAt_updateAt p f g n :
  updateAt p f (updateAt p g n) = updateAt p (f ∘ g) n.
Proof.
  revert n. induction p as [|i p IH]; intros n; [done|].
  destruct n as [|e cs]; [done|]. simpl. f_equal.
  apply list_eq. intros k. destruct (decide (i = k)) as [<-|Hne].
  - rewrite !list_lookup_alter_eq. destruct (cs !! i); simpl; [|done].
    by rewrite IH.
  - by rewrite !list_lookup_alter_ne.
Qed.

(** An update is determined by what it does to the node it acts on. *)
Lemma updateAt_ext_at p f g anc n above m :
  locate p anc n = Some (above, m) → f m = g m →
  updateAt p f n = updateAt p g n.
Proof.
  revert anc n. induction p as [|i p IH]; intros anc n; simpl.
  - by intros [= _ ->].
  - destruct n as [|e cs]; [done|].
    destruct (cs !! i) as [c|] eqn:Hc; simpl; [|done]. intros Hloc Hfg.
    f_equal. apply list_eq. intros k. destruct (decide (i = k)) as [<-|Hne].
    + rewrite !list_lookup_alter_eq, Hc. simpl. f_equal. by eapply IH.
    + by rewrite !list_lookup_alter_ne.
Qed.

Lemma firstMatch_ensurePositioned sel anc n :
  firstMatch sel anc (ensurePositioned n) = firstMatch sel anc n.
Proof.
  destruct n as [|e cs]; [done|].
  destruct (ensurePositioned_Elem e cs) as (e' & -> & Hname). cbn [firstMatch].
  rewrite <- (matches_sameName sel anc anc e e' (Forall2_sameName_refl anc) Hname).
  destruct (matches sel anc e); [done|].
  apply firstIn_ext, Forall_forall. intros c _. apply firstMatch_sameName.
  constructor; [|apply Forall2_sameName_refl].
  destruct Hname as (? & ? & ?). by repeat split.
Qed.

Lemma setProperty_twice name value st :
  setProperty name value (setProperty name value st) = setProperty name value st.
Proof.
  induction st as [|[k v] st IH]; simpl; [by rewrite String.eqb_refl|].
  destruct (String.eqb k name) eqn:E; simpl; [by rewrite String.eqb_refl|].
  by rewrite E, IH.
Qed.

(** Positioning a positioned container again changes nothing, whatever
    the cascade answers. *)
Lemma ensurePositioned_settled e cs :
  ∃ e', ensurePositioned (Elem e cs) = Elem e' cs
        ∧ ∀ cs', ensurePositioned (Elem e' cs') = Elem e' cs'.
Proof.
  cbn [ensurePositioned].
  destruct (String.eqb_spec (computedPosition e) "static") as [Hs|Hs].
  - eexists. split; [done|]. intros cs'. cbn [ensurePositioned].
    destruct (String.eqb _ "static"); [|done].
    unfold setStyle. cbn [tagName id classList style cascadePosition].
    by rewrite setProperty_twice.
  - exists e. split; [done|]. intros cs'. simpl.
    apply String.eqb_neq in Hs. by rewrite Hs.
Qed.

(** The ways the first call ends, with what it found on its way. *)
Lemma first_call_cases anc item :
  result (processVideoElement kws anc item) = item
  ∨ ∃ tp, querySelector titleSelector anc item = Some tp
      ∧ ((querySelector thumbnailSelector anc
            (updateAt tp (setTextContent "Spoiler") item) = None
          ∧ result (processVideoElement kws anc item)
            = updateAt tp (setTextContent "Spoiler") item)
         ∨ ∃ q above container,
             querySelector thumbnailSelector anc
               (updateAt tp (setTextContent "Spoiler") item) = Some q
             ∧ locate q anc (updateAt tp (setTextContent "Spoiler") item)
               = Some (above, container)
             ∧ ((is_Some (querySelector overlaySelector above container)
                 ∧ result (processVideoElement kws anc item)
                   = updateAt tp (setTextContent "Spoiler") item)
                ∨ (querySelector overlaySelector above container = None
                   ∧ result (processVideoElement kws anc item)
                     = updateAt q addOverlay
                         (updateAt tp (setTextContent "Spoiler") item)))).
Proof.
  unfold processVideoElement.
  destruct (querySelector titleSelector anc item) as [tp|] eqn:Htitle; [|by left].
  destruct (truthy _); [|by left]. destruct (_ && _); [by left|].
  destruct (containsSpoiler _ _); [|by left]. right. exists tp. split; [done|].
  destruct (querySelector thumbnailSelector _ _) as [q|] eqn:Hthumb; [|by left].
  right. pose proof Hthumb as (i & q' & above & e & cs & -> & Hloc & _)%querySelector_locate.
  exists (i :: q'), above, (Elem e cs). rewrite Hloc. split; [done|]. split; [done|].
  case_bool_decide as Hov; [by left|]. right. split; [|done].
  destruct (querySelector overlaySelector above (Elem e cs)); [|done].
  exfalso. apply Hov. by eexists.
Qed.

Lemma retitle_twice tp item :
  updateAt tp (setTextContent "Spoiler")
    (updateAt tp (setTextContent "Spoiler") item)
  = updateAt tp (setTextContent "Spoiler") item.
Proof.
  rewrite updateAt_updateAt. revert item.
  induction tp as [|i tp IH]; intros item.
  - by destruct item.
  - destruct item as [|e cs]; [done|]. simpl. f_equal.
    apply list_eq. intros k. destruct (decide (i = k)) as [<-|Hne].
    + rewrite !list_lookup_alter_eq. destruct (cs !! i); simpl; [|done].
      f_equal. apply IH.
    + by rewrite !list_lookup_alter_ne.
Qed.

(** A retitled item without a thumbnail container is left as it is. *)
Lemma retitled_fixed anc item tp :
  querySelector titleSelector anc item = Some tp →
  querySelector thumbnailSelector anc
    (updateAt tp (setTextContent "Spoiler") item) = None →
  result (processVideoElement kws anc
            (updateAt tp (setTextContent "Spoiler") item))
  = updateAt tp (setTextContent "Spoiler") item.
Proof.
  intros Htitle Hthumb. unfold processVideoElement.
  rewrite (querySelector_updateAt_same _ _ _ _ _ (setTextContent_keeps _) Htitle).
  rewrite (textContentAt_retitle anc item tp Htitle). cbn [truthy].
  destruct (_ && _); [done|]. destruct (containsSpoiler _ _); [|done].
  by rewrite retitle_twice, Hthumb.
Qed.

(** An item that got its overlay in a container other than the title
    element is in the masked state. *)
Lemma covered_is_masked anc item tp q above container :
  querySelector titleSelector anc item = Some tp →
  querySelector thumbnailSelector anc
    (updateAt tp (setTextContent "Spoiler") item) = Some q →
  locate q anc (updateAt tp (setTextContent "Spoiler") item)
    = Some (above, container) →
  q ≠ tp →
  result (processVideoElement kws anc
            (updateAt q addOverlay (updateAt tp (setTextContent "Spoiler") item)))
  = updateAt q addOverlay (updateAt tp (setTextContent "Spoiler") item).
Proof.
  intros Htitle Hthumb Hloc Hne.
  pose proof Hthumb as (i & q' & above' & e & cs & -> & Hloc' & _)%querySelector_locate.
  rewrite Hloc in Hloc'. injection Hloc' as <- ->.
  rewrite (already_masked_exit kws _ _ tp); [done|..].
  - rewrite querySelector_updateAt_unseen;
      [|apply firstMatch_addOverlay, firstMatch_title_overlay].
    apply querySelector_updateAt_same; [apply setTextContent_keeps | done].
  - pose proof (textContentAt_retitle anc item tp Htitle) as Htext.
    unfold textContentAt in *.
    destruct (locate tp [] (updateAt tp (setTextContent "Spoiler") item))
      as [[at_ title]|] eqn:Htp; [|done].
    destruct (locate_updateAt_off addOverlay (fun _ => eq_refl)
                (addOverlay_appends) tp (i :: q') [] _ at_ title Htp)
      as [at' ->]; [|done].
    by eapply (retitled_title_is_leaf anc item tp (i :: q')).
  - eapply querySelector_overlay_above;
      [exact (locate_updateAt _ addOverlay _ _ _ _ Hloc)|].
    apply querySelector_overlay_addOverlay.
Qed.

(** An item whose title element is its thumbnail container as well comes
    out of a second masking as it went in. *)
Lemma title_container_fixed anc item tp :
  querySelector titleSelector anc item = Some tp →
  querySelector thumbnailSelector anc
    (updateAt tp (setTextContent "Spoiler") item) = Some tp →
  result (processVideoElement kws anc
            (updateAt tp addOverlay (updateAt tp (setTextContent "Spoiler") item)))
  = updateAt tp addOverlay (updateAt tp (setTextContent "Spoiler") item).
Proof.
  intros Htitle Hthumb.
  pose proof Htitle as (i & p' & at_ & et & cst & -> & Hitem & _)%querySelector_locate.
  set (tp := i :: p') in *.
  set (retitled := updateAt tp (setTextContent "Spoiler") item) in *.
  set (r1 := updateAt tp addOverlay retitled).
  destruct (ensurePositioned_settled et [Text "Spoiler"]) as (et' & Hpos & Hsettled).
  assert (Hret : locate tp anc retitled = Some (at_, Elem et [Text "Spoiler"])).
  { exact (locate_updateAt _ (setTextContent "Spoiler") _ _ _ _ Hitem). }
  assert (Hn1 : addOverlay (Elem et [Text "Spoiler"])
                = Elem et' [Text "Spoiler"; overlay]).
  { unfold addOverlay. by rewrite Hpos. }
  assert (Hr1 : locate tp anc r1 = Some (at_, Elem et' [Text "Spoiler"; overlay])).
  { rewrite <- Hn1. exact (locate_updateAt _ addOverlay _ _ _ _ Hret). }
  assert (Htitle1 : querySelector titleSelector anc r1 = Some tp).
  { unfold r1, tp. rewrite querySelector_updateAt_unseen;
      [|apply firstMatch_addOverlay, firstMatch_title_overlay].
    apply querySelector_updateAt_same; [apply setTextContent_keeps | done]. }
  assert (Htext1 : textContentAt tp r1 = "SpoilerSPOILER").
  { unfold textContentAt.
    destruct (locate_any _ _ [] _ _ _ Hr1) as [a' ->]. reflexivity. }
  unfold processVideoElement. rewrite Htitle1, Htext1.
  cbn [truthy]. replace (String.eqb "SpoilerSPOILER" "Spoiler") with false by done.
  cbn [andb]. destruct (containsSpoiler kws "SpoilerSPOILER"); [|done].
  set (retitled2 := updateAt tp (setTextContent "Spoiler") r1).
  assert (Hret2 : locate tp anc retitled2 = Some (at_, Elem et' [Text "Spoiler"])).
  { exact (locate_updateAt _ (setTextContent "Spoiler") _ _ _ _ Hr1). }
  assert (Hsame : retitled2 = updateAt tp ensurePositioned retitled).
  { unfold retitled2, r1, retitled. rewrite !updateAt_updateAt.
    eapply updateAt_ext_at; [exact Hitem|]. unfold compose, addOverlay.
    cbn [setTextContent truthy]. rewrite Hpos. reflexivity. }
  assert (Hthumb2 : querySelector thumbnailSelector anc retitled2 = Some tp).
  { rewrite Hsame. unfold tp. rewrite querySelector_updateAt_unseen; [done|].
    intros ??. apply firstMatch_ensurePositioned. }
  rewrite Hthumb2, Hret2.
  replace (querySelector overlaySelector at_ (Elem et' [Text "Spoiler"]))
    with (@None path) by done.
  rewrite bool_decide_eq_false_2 by (by intros [? ?]). cbn [result].
  unfold retitled2. rewrite updateAt_updateAt.
  rewrite <- (updateAt_same tp anc r1 _ _ Hr1) at 2.
  eapply updateAt_ext_at; [exact Hr1|]. unfold compose, addOverlay.
  cbn [setTextContent truthy]. by rewrite Hsettled.
Qed.

Lemma second_call_same anc item :
  result (processVideoElement kws anc
            (result (processVideoElement kws anc item)))
  = result (processVideoElement kws anc item).
Proof.
  destruct (first_call_cases anc item)
    as [Hsame | (tp & Htitle & [[Hnone Hres] |
         (q & above & container & Hthumb & Hloc & [[Hov Hres]|[Hclean Hres]])])].
  - by rewrite !Hsame.
  - rewrite Hres. by apply retitled_fixed.
  - rewrite Hres.
    pose proof Hthumb as (i & q' & _ & _ & _ & -> & _)%querySelector_locate.
    rewrite (already_masked_exit kws _ _ tp); [done|..].
    + apply querySelector_updateAt_same; [apply setTextContent_keeps | done].
    + by eapply textContentAt_retitle.
    + by eapply querySelector_overlay_above.
  - rewrite Hres. destruct (decide (q = tp)) as [->|Hne].
    + by apply title_container_fixed.
    + by eapply covered_is_masked.
Qed.

(** X13. Calling twice is calling once: whatever the first call of
    [processVideoElement] made of an item, a second call leaves it so. *)
Theorem processVideoElement_idempotent anc item :
  result (processVideoElement kws anc
            (result (processVideoElement kws anc item)))
  = result (processVideoElement kws anc item).
Proof.
  destruct (first_call_cases anc item)
    as [Hsame | (tp & Htitle & [[Hnone Hres] |
         (q & above & container & Hthumb & Hloc & [[Hov Hres]|[Hclean Hres]])])].
  - by rewrite !Hsame.
  - rewrite Hres. by apply retitled_fixed.
  - rewrite Hres.
    pose proof Hthumb as (i & q' & _ & _ & _ & -> & _)%querySelector_locate.
    rewrite (already_masked_exit kws _ _ tp); [done|..].
    + apply querySelector_updateAt_same; [apply setTextContent_keeps | done].
    + by eapply textContentAt_retitle.
    + by eapply querySelector_overlay_above.
  - rewrite Hres. destruct (decide (q = tp)) as [->|Hne].
    + by apply title_container_fixed.
    + by eapply covered_is_masked.
Qed.

End twice.

(** * Scanning a page without nested containers *)

Section unnested_pages.

Variable kws : list string.

Lemma result_keeps_element anc e cs :
  ∃ cs', result (processVideoElement kws anc (Elem e cs)) = Elem e cs'.
Proof.
  destruct (processVideoElement_ending kws anc (Elem e cs))
    as [o log _|tp log Htitle|tp q above container log Htitle Hthumb _ _];
    cbn [result].
  - by exists cs.
  - apply querySelector_locate in Htitle as (i & p' & _ & _ & _ & -> & _).
    by eexists.
  - apply querySelector_locate in Htitle as (i & p' & _ & _ & _ & -> & _).
    apply querySelector_locate in Hthumb as (j & q' & _ & _ & _ & -> & _).
    by eexists.
Qed.

Lemma overwrote_nonempty anc item tp :
  overwrote (processVideoElement kws anc item) = Some tp → tp ≠ [].
Proof.
  destruct (processVideoElement_ending kws anc item)
    as [o log _|tp' log Htitle|tp' q above container log Htitle _ _ _];
    cbn [overwrote]; [done|..]; intros [= <-];
    by apply querySelector_locate in Htitle as (i & p' & _ & _ & _ & -> & _).
Qed.

Lemma noVideoContainer_updateAt f p n :
  (∀ m, noVideoContainer m = true → noVideoContainer (f m) = true) →
  noVideoContainer n = true → noVideoContainer (updateAt p f n) = true.
Proof.
  intros Hf. revert n. induction p as [|i p IH]; intros n; [apply Hf|].
  destruct n as [|e cs]; [done|]. cbn [updateAt noVideoContainer].
  rewrite !andb_true_iff, !forallb_forall. intros [Htag Hcs]. split; [done|].
  intros c Hc%list_elem_of_In%list_elem_of_lookup. destruct Hc as [k Hk].
  destruct (decide (i = k)) as [<-|Hne].
  - rewrite list_lookup_alter_eq in Hk.
    destruct (cs !! i) as [c0|] eqn:Hc0; [|done]. injection Hk as <-.
    apply IH, Hcs, list_elem_of_In. by eapply list_elem_of_lookup_2.
  - rewrite list_lookup_alter_ne in Hk by done.
    apply Hcs, list_elem_of_In. by eapply list_elem_of_lookup_2.
Qed.

Lemma flat_updateAt f i p n :
  (∀ m, noVideoContainer m = true → noVideoContainer (f m) = true) →
  flat n = true → flat (updateAt (i :: p) f n) = true.
Proof.
  intros Hf. destruct n as [|e cs]; [done|]. cbn [updateAt flat].
  rewrite !forallb_forall.
  intros Hcs c Hc%list_elem_of_In%list_elem_of_lookup. destruct Hc as [k Hk].
  destruct (decide (i = k)) as [<-|Hne].
  - rewrite list_lookup_alter_eq in Hk.
    destruct (cs !! i) as [c0|] eqn:Hc0; [|done]. injection Hk as <-.
    apply noVideoContainer_updateAt; [done|].
    apply Hcs, list_elem_of_In. by eapply list_elem_of_lookup_2.
  - rewrite list_lookup_alter_ne in Hk by done.
    apply Hcs, list_elem_of_In. by eapply list_elem_of_lookup_2.
Qed.

Lemma noVideoContainer_setTextContent value m :
  noVideoContainer m = true → noVideoContainer (setTextContent value m) = true.
Proof.
  destruct m as [|e cs]; [done|]. cbn [noVideoContainer setTextContent].
  intros [-> _]%andb_true_iff. by destruct (truthy value).
Qed.

Lemma noVideoContainer_addOverlay m :
  noVideoContainer m = true → noVideoContainer (addOverlay m) = true.
Proof.
  destruct m as [|e cs]; [done|].
  destruct (addOverlay_Elem e cs) as (e' & -> & Htag & _).
  cbn [noVideoContainer]. rewrite <- Htag.
  intros [-> Hcs]%andb_true_iff. rewrite forallb_app, Hcs. reflexivity.
Qed.

(** A call keeps a container free of video containers below it. *)
Lemma flat_result anc c :
  flat c = true → flat (result (processVideoElement kws anc c)) = true.
Proof.
  intros Hflat.
  destruct (processVideoElement_ending kws anc c)
    as [o log _|tp log Htitle|tp q above container log Htitle Hthumb _ _];
    cbn [result]; [done|..].
  - apply querySelector_locate in Htitle as (i & p' & _ & _ & _ & -> & _).
    apply flat_updateAt; [apply noVideoContainer_setTextContent | done].
  - apply querySelector_locate in Htitle as (i & p' & _ & _ & _ & -> & _).
    apply querySelector_locate in Hthumb as (j & q' & _ & _ & _ & -> & _).
    apply flat_updateAt; [apply noVideoContainer_addOverlay|].
    apply flat_updateAt; [apply noVideoContainer_setTextContent | done].
Qed.

Lemma strictlyBelow_prefix p r : strictlyBelow p r = true → p `prefix_of` r.
Proof.
  revert r. induction p as [|i p IH]; intros [|j r]; simpl; try done.
  - intros _. by exists (j :: r).
  - intros [->%Nat.eqb_eq H%IH]%andb_true_iff. by apply prefix_cons.
Qed.

Lemma noVideoContainer_unnested n :
  noVideoContainer n = true → unnested n = true.
Proof.
  induction n as [|e cs IH] using node_ind; [done|].
  cbn [noVideoContainer unnested]. intros [Htag Hcs]%andb_true_iff.
  apply negb_true_iff in Htag. rewrite Htag.
  rewrite forallb_forall in Hcs |- *. rewrite Forall_forall in IH.
  intros c Hc. apply IH; [by apply list_elem_of_In | by apply Hcs].
Qed.

Lemma unnested_children e cs :
  unnested (Elem e cs) = true → Forall (fun c => unnested c = true) cs.
Proof.
  cbn [unnested]. destruct (existsb _ videoSelectors); rewrite forallb_forall;
    intros Hcs; apply Forall_forall; intros c Hc%list_elem_of_In.
  - by apply noVideoContainer_unnested, Hcs.
  - by apply Hcs.
Qed.

Lemma unnested_flat tag e cs :
  tag ∈ videoSelectors → String.eqb (tagName e) tag = true →
  unnested (Elem e cs) = true → flat (Elem e cs) = true.
Proof.
  intros Htag He. cbn [unnested flat].
  replace (existsb (String.eqb (tagName e)) videoSelectors) with true; [done|].
  symmetry. apply existsb_exists. exists tag. split; [by apply list_elem_of_In | done].
Qed.

(** *** Updating below a node that is then replaced *)

Lemma updateAt_over (p r : path) f m n :
  updateAt p (fun _ => m) (updateAt (p ++ r)%list f n) = updateAt p (fun _ => m) n.
Proof.
  revert n. induction p as [|i p IH]; intros n; [done|].
  destruct n as [|e cs]; [done|]. simpl. f_equal.
  apply list_eq. intros k. destruct (decide (i = k)) as [<-|Hne].
  - rewrite !list_lookup_alter_eq. destruct (cs !! i); simpl; [|done].
    by rewrite IH.
  - by rewrite !list_lookup_alter_ne.
Qed.

Lemma updateAt_app (p r : path) f anc n above m :
  locate p anc n = Some (above, m) →
  updateAt (p ++ r)%list f n = updateAt p (fun _ => updateAt r f m) n.
Proof.
  revert anc n. induction p as [|i p IH]; intros anc n; simpl.
  - by intros [= _ ->].
  - destruct n as [|e cs]; [done|].
    destruct (cs !! i) as [c|] eqn:Hc; simpl; [|done]. intros Hloc.
    f_equal. apply list_eq. intros k. destruct (decide (i = k)) as [<-|Hne].
    + rewrite !list_lookup_alter_eq, Hc. simpl. f_equal. by eapply IH.
    + by rewrite !list_lookup_alter_ne.
Qed.

Lemma locate_replaced (p : path) anc n above m m' :
  locate p anc n = Some (above, m) →
  locate p anc (updateAt p (fun _ => m') n) = Some (above, m').
Proof. intros H. exact (locate_updateAt p (fun _ => m') anc n above m H). Qed.


(** *** One visit *)

Lemma visit_container (r : path) anc doc cl c :
  locate r [] doc = Some (anc, c) →
  (∀ p, p ∈ cl → ¬ p `prefix_of` r) →
  ∃ new,
    visit kws (ScanState doc cl) r
    = ScanState (updateAt r (fun _ => result (processVideoElement kws anc c)) doc)
        (new ++ cl)%list
    ∧ Forall (fun p => r `prefix_of` p) new.
Proof.
  intros Hloc Hcl. unfold visit. cbn [cleared page].
  replace (existsb (fun p => strictlyBelow p r) cl) with false.
  2:{ symmetry. apply not_true_iff_false. intros Hex.
      apply existsb_exists in Hex as (p & Hp%list_elem_of_In & Hbelow).
      by apply (Hcl p Hp), strictlyBelow_prefix. }
  rewrite Hloc. destruct (overwrote _) as [tp|].
  - exists [(r ++ tp)%list]. split; [done|].
    constructor; [by apply prefix_app_r | done].
  - by exists [].
Qed.

(** *** One pass, subtree by subtree *)

(** The children of an element that does not have the tag name: with the
    children [pre] done and the children [post] to come, the pass ends
    with the pass done in every child of [post]. *)
Lemma pass_children tag e post :
  Forall (fun c => ∀ (prefix : path) anc doc cl,
            locate prefix [] doc = Some (anc, c) →
            (∀ p, p ∈ cl → ∀ s, ¬ p `prefix_of` (prefix ++ s)%list) →
            ∃ new,
              fold_left (visit kws)
                ((prefix ++.)%list <$> allMatches [Simple (TypeSel tag)] anc c)
                (ScanState doc cl)
              = ScanState (updateAt prefix (fun _ => passTree kws tag anc c) doc)
                  (new ++ cl)%list
              ∧ Forall (fun p => prefix `prefix_of` p) new) post →
  ∀ pre (prefix : path) anc doc cl,
    locate prefix [] doc = Some (anc, Elem e (pre ++ post)%list) →
    (∀ p, p ∈ cl → ∀ k s, length pre ≤ k → ¬ p `prefix_of` (prefix ++ k :: s)%list) →
    ∃ new,
      fold_left (visit kws)
        ((prefix ++.)%list
           <$> allIn (allMatches [Simple (TypeSel tag)] (e :: anc)) (length pre) post)
        (ScanState doc cl)
      = ScanState
          (updateAt prefix
             (fun _ => Elem e (pre ++ map (passTree kws tag (e :: anc)) post)%list) doc)
          (new ++ cl)%list
      ∧ Forall (fun p => prefix `prefix_of` p) new.
Proof.
  induction 1 as [|c post Hc _ IH]; intros pre prefix anc doc cl Hloc Hcl.
  - exists []. split; [|done]. cbn [allIn fmap list_fmap fold_left map app].
    f_equal. symmetry. by eapply updateAt_same.
  - cbn [allIn]. rewrite fmap_app, fold_left_app, <- list_fmap_compose.
    set (i := length pre).
    assert (Hchild : locate (prefix ++ [i])%list [] doc = Some (e :: anc, c)).
    { rewrite locate_app, Hloc. simpl. by rewrite list_lookup_middle. }
    destruct (Hc (prefix ++ [i])%list (e :: anc) doc cl Hchild) as (new1 & Hfold1 & Hnew1).
    { intros p Hp s. rewrite <- app_assoc. by apply Hcl. }
    replace (((prefix ++.)%list ∘ (i ::.)) <$> allMatches [Simple (TypeSel tag)] (e :: anc) c)
      with (((prefix ++ [i]) ++.)%list <$> allMatches [Simple (TypeSel tag)] (e :: anc) c).
    2:{ apply list_fmap_ext. intros _ x _. simpl. by rewrite <- app_assoc. }
    unfold path in *. rewrite Hfold1.
    set (c' := passTree kws tag (e :: anc) c) in *.
    set (doc1 := updateAt (prefix ++ [i])%list (fun _ => c') doc).
    assert (Hloc1 : locate prefix [] doc1
                    = Some (anc, Elem e ((pre ++ [c']) ++ post)%list)).
    { unfold doc1. rewrite (updateAt_app prefix [i] _ [] doc anc _ Hloc).
      erewrite locate_replaced by exact Hloc. do 2 f_equal. simpl. f_equal.
      unfold i. rewrite <- (Nat.add_0_r (length pre)), alter_app_r.
      by rewrite <- app_assoc. }
    destruct (IH (pre ++ [c'])%list prefix anc doc1 (new1 ++ cl)%list Hloc1)
      as (new2 & Hfold2 & Hnew2).
    { intros p [Hp|Hp]%elem_of_app k s Hk Hpre;
        rewrite length_app in Hk; simpl in Hk.
      - rewrite Forall_forall in Hnew1. specialize (Hnew1 p Hp).
        assert (Hboth : (prefix ++ [i])%list `prefix_of` (prefix ++ k :: s)%list).
        { by etrans. }
        apply prefix_app_inv in Hboth. destruct Hboth as [t Ht].
        injection Ht as Hk' _. unfold i in Hk'. lia.
      - apply (Hcl p Hp k s); [fold i; lia | done]. }
    rewrite length_app, Nat.add_1_r in Hfold2. fold i in Hfold2. rewrite Hfold2.
    exists (new2 ++ new1)%list. split.
    + unfold doc1. rewrite updateAt_over. by rewrite <- !app_assoc.
    + apply Forall_app. split; [done|].
      eapply Forall_impl; [exact Hnew1|]. intros p Hp. simpl in Hp.
      etrans; [|exact Hp]. by apply prefix_app_r.
Qed.

(** One pass over a subtree [n] that sits at [prefix] in the page: the
    page ends with the pass done in [n], and the titles overwritten on the
    way lie in [n]. *)
Lemma pass_subtree tag n :
  tag ∈ videoSelectors →
  unnested n = true →
  ∀ (prefix : path) anc doc cl,
    locate prefix [] doc = Some (anc, n) →
    (∀ p, p ∈ cl → ∀ s, ¬ p `prefix_of` (prefix ++ s)%list) →
    ∃ new,
      fold_left (visit kws)
        ((prefix ++.)%list <$> allMatches [Simple (TypeSel tag)] anc n)
        (ScanState doc cl)
      = ScanState (updateAt prefix (fun _ => passTree kws tag anc n) doc)
          (new ++ cl)%list
      ∧ Forall (fun p => prefix `prefix_of` p) new.
Proof.
  intros Htag. induction n as [d|e cs IH] using node_ind;
    intros Hun prefix anc doc cl Hloc Hcl.
  - exists []. split; [|done]. cbn [allMatches fmap list_fmap fold_left passTree app].
    f_equal. symmetry. by eapply updateAt_same.
  - cbn [allMatches passTree]. unfold matches.
    cbn [existsb matchesComplex matchesSimple]. rewrite orb_false_r.
    destruct (String.eqb (tagName e) tag) eqn:He.
    + pose proof (unnested_flat tag e cs Htag He Hun) as Hflat.
      cbn [flat] in Hflat. rewrite allIn_nil.
      2:{ rewrite forallb_forall in Hflat. apply Forall_forall. intros c Hc.
          apply no_container_no_match; [done|]. by apply Hflat, list_elem_of_In. }
      cbn [app fmap list_fmap fold_left]. rewrite app_nil_r.
      apply visit_container; [done|].
      intros p Hp. specialize (Hcl p Hp []). by rewrite app_nil_r in Hcl.
    + apply unnested_children in Hun.
      assert (Hcs : Forall (fun c => ∀ (prefix : path) anc doc cl,
            locate prefix [] doc = Some (anc, c) →
            (∀ p, p ∈ cl → ∀ s, ¬ p `prefix_of` (prefix ++ s)%list) →
            ∃ new,
              fold_left (visit kws)
                ((prefix ++.)%list <$> allMatches [Simple (TypeSel tag)] anc c)
                (ScanState doc cl)
              = ScanState (updateAt prefix (fun _ => passTree kws tag anc c) doc)
                  (new ++ cl)%list
              ∧ Forall (fun p => prefix `prefix_of` p) new) cs).
      { rewrite Forall_forall in IH, Hun |- *. intros c Hc. by apply IH, Hun. }
      apply (pass_children tag e cs Hcs [] prefix anc doc cl Hloc).
      intros p Hp k s _. by apply Hcl.
Qed.

(** One pass over a page. *)
Lemma scanSelector_unnested tag doc :
  tag ∈ videoSelectors → unnested doc = true →
  scanSelector kws doc tag = passTree kws tag [] doc.
Proof.
  intros Htag Hun. unfold scanSelector, querySelectorAll.
  destruct (pass_subtree tag doc Htag Hun [] [] doc []) as (new & Hfold & _);
    [done | by intros p Hp%elem_of_nil |].
  rewrite list_fmap_id in Hfold. by rewrite Hfold.
Qed.

(** *** The passes of a scan *)

(** A pass changes nothing where there is no video container. *)
Lemma passTree_off tag anc n :
  tag ∈ videoSelectors → noVideoContainer n = true →
  passTree kws tag anc n = n.
Proof.
  intros Htag. revert anc. induction n as [d|e cs IH] using node_ind;
    intros anc; [done|].
  cbn [noVideoContainer passTree]. intros [He Hcs]%andb_true_iff.
  apply negb_true_iff in He.
  destruct (String.eqb (tagName e) tag) eqn:Heq.
  - exfalso. apply not_true_iff_false in He. apply He, existsb_exists.
    exists tag. split; [by apply list_elem_of_In | done].
  - f_equal. rewrite <- (map_id cs) at 2. apply map_ext_in.
    intros c Hc. rewrite forallb_forall in Hcs. rewrite Forall_forall in IH.
    apply IH; [by apply list_elem_of_In | by apply Hcs].
Qed.

Lemma passTree_flat tag anc e cs :
  tag ∈ videoSelectors → flat (Elem e cs) = true →
  String.eqb (tagName e) tag = false →
  passTree kws tag anc (Elem e cs) = Elem e cs.
Proof.
  intros Htag Hflat He. cbn [passTree flat] in *. rewrite He. f_equal.
  rewrite <- (map_id cs) at 2. apply map_ext_in. intros c Hc.
  rewrite forallb_forall in Hflat. apply passTree_off; [done | by apply Hflat].
Qed.

Lemma passTree_unnested tag anc n :
  tag ∈ videoSelectors → unnested n = true →
  unnested (passTree kws tag anc n) = true.
Proof.
  intros Htag. revert anc. induction n as [d|e cs IH] using node_ind;
    intros anc Hun; [done|].
  cbn [passTree]. destruct (String.eqb (tagName e) tag) eqn:He.
  - pose proof (unnested_flat tag e cs Htag He Hun) as Hflat.
    apply (flat_result anc) in Hflat.
    destruct (result_keeps_element anc e cs) as [cs' Hres].
    rewrite Hres in *. cbn [unnested flat] in *.
    replace (existsb (String.eqb (tagName e)) videoSelectors) with true; [done|].
    symmetry. apply existsb_exists. exists tag.
    split; [by apply list_elem_of_In | done].
  - cbn [unnested] in *. destruct (existsb _ videoSelectors).
    + rewrite forallb_forall in Hun |- *. intros c' (c & <- & Hc)%in_map_iff.
      rewrite passTree_off; [by apply Hun | done | by apply Hun].
    + rewrite forallb_forall in Hun |- *. intros c' (c & <- & Hc)%in_map_iff.
      rewrite Forall_forall in IH.
      apply IH; [by apply list_elem_of_In | by apply Hun].
Qed.

(** The passes of a scan, as passes over the tree. *)
Lemma passes_unnested tags doc :
  Forall (fun tag => tag ∈ videoSelectors) tags → unnested doc = true →
  fold_left (scanSelector kws) tags doc
  = fold_left (fun n tag => passTree kws tag [] n) tags doc.
Proof.
  intros Htags. revert doc. induction Htags as [|tag tags Htag _ IH];
    intros doc Hun; [done|].
  cbn [fold_left]. rewrite scanSelector_unnested by done.
  apply IH. by apply passTree_unnested.
Qed.

(** The passes over an element that is no video container go to its
    children. *)
Lemma passes_below tags anc e cs :
  Forall (fun tag => String.eqb (tagName e) tag = false) tags →
  fold_left (fun n tag => passTree kws tag anc n) tags (Elem e cs)
  = Elem e (map (fun c => fold_left (fun n tag => passTree kws tag (e :: anc) n)
                            tags c) cs).
Proof.
  intros Htags. revert cs. induction Htags as [|tag tags Htag _ IH]; intros cs.
  - cbn [fold_left]. by rewrite map_id.
  - cbn [fold_left passTree]. rewrite Htag, IH. by rewrite map_map.
Qed.

(** The passes over a video container that holds no other: the pass of
    its tag name calls [processVideoElement] on it, the others leave it. *)
Lemma passes_on_container tags anc e cs :
  NoDup tags → Forall (fun tag => tag ∈ videoSelectors) tags →
  flat (Elem e cs) = true →
  fold_left (fun n tag => passTree kws tag anc n) tags (Elem e cs)
  = if existsb (String.eqb (tagName e)) tags
    then result (processVideoElement kws anc (Elem e cs)) else Elem e cs.
Proof.
  intros Hnodup. revert cs. induction Hnodup as [|tag tags Hnotin _ IH];
    intros cs Htags Hflat; [done|].
  apply Forall_cons in Htags as [Htag Htags].
  cbn [fold_left existsb]. destruct (String.eqb (tagName e) tag) eqn:He.
  - cbn [passTree orb]. rewrite He.
    pose proof (flat_result anc _ Hflat) as Hflat'.
    destruct (result_keeps_element anc e cs) as [cs' Hres].
    rewrite Hres in *. rewrite IH by done.
    replace (existsb (String.eqb (tagName e)) tags) with false; [done|].
    symmetry. apply not_true_iff_false.
    intros (tag' & Hin%list_elem_of_In & Htag')%existsb_exists.
    apply String.eqb_eq in He, Htag'. congruence.
  - rewrite passTree_flat by done. cbn [orb]. by apply IH.
Qed.

Lemma videoSelectors_distinct : NoDup videoSelectors.
Proof.
  unfold videoSelectors.
  repeat (apply NoDup_cons; split;
          [intros Hin; repeat (apply elem_of_cons in Hin as [Heq|Hin];
                               [discriminate Heq|]);
           by apply elem_of_nil in Hin|]).
  apply NoDup_nil_2.
Qed.

(** All passes over a subtree. *)
Lemma passes_are_scanTree anc n :
  unnested n = true →
  fold_left (fun n tag => passTree kws tag anc n) videoSelectors n
  = scanTree kws anc n.
Proof.
  revert anc. induction n as [d|e cs IH] using node_ind; intros anc Hun.
  - generalize videoSelectors. intros tags. by induction tags.
  - pose proof (unnested_children e cs Hun) as Hcs.
    cbn [scanTree unnested] in *.
    destruct (existsb (String.eqb (tagName e)) videoSelectors) eqn:He.
    + rewrite passes_on_container;
        [by rewrite He | apply videoSelectors_distinct | by apply Forall_forall | done].
    + rewrite passes_below.
      * f_equal. apply map_ext_in. intros c Hc%list_elem_of_In.
        rewrite Forall_forall in IH, Hcs. by apply IH, Hcs.
      * apply Forall_forall. intros tag Htag.
        destruct (String.eqb (tagName e) tag) eqn:Heq; [|done].
        rewrite <- He. symmetry. apply existsb_exists. exists tag.
        split; [by apply list_elem_of_In | done].
Qed.

Lemma scan_unnested doc :
  unnested doc = true → processAllVideoElements kws doc = scanTree kws [] doc.
Proof.
  intros Hun. unfold processAllVideoElements.
  rewrite passes_unnested; [by apply passes_are_scanTree | by apply Forall_forall | done].
Qed.

Lemma scanTree_unnested anc n :
  unnested n = true → unnested (scanTree kws anc n) = true.
Proof.
  revert anc. induction n as [d|e cs IH] using node_ind; intros anc Hun; [done|].
  cbn [scanTree]. destruct (existsb (String.eqb (tagName e)) videoSelectors) eqn:He.
  - assert (Hflat : flat (Elem e cs) = true).
    { cbn [unnested flat] in *. by rewrite He in Hun. }
    apply (flat_result anc) in Hflat.
    destruct (result_keeps_element anc e cs) as [cs' Hres].
    rewrite Hres in *. cbn [unnested flat] in *. by rewrite He.
  - pose proof (unnested_children e cs Hun) as Hcs.
    cbn [unnested]. rewrite He. apply forallb_forall.
    intros c' (c & <- & Hc%list_elem_of_In)%in_map_iff.
    rewrite Forall_forall in IH, Hcs. by apply IH, Hcs.
Qed.

(** A second call on every outermost video container leaves the tree as
    the first calls made it. *)
Lemma scanTree_twice anc n :
  scanTree kws anc (scanTree kws anc n) = scanTree kws anc n.
Proof.
  revert anc. induction n as [d|e cs IH] using node_ind; intros anc; [done|].
  cbn [scanTree]. destruct (existsb (String.eqb (tagName e)) videoSelectors) eqn:He.
  - destruct (result_keeps_element anc e cs) as [cs' Hres].
    rewrite Hres. cbn [scanTree]. rewrite He, <- Hres. apply second_call_same.
  - cbn [scanTree]. rewrite He. f_equal. rewrite map_map. apply map_ext_in.
    intros c Hc%list_elem_of_In. rewrite Forall_forall in IH. by apply IH.
Qed.

Lemma scanned_page_fixed doc :
  unnested doc = true →
  processAllVideoElements kws (processAllVideoElements kws doc)
  = processAllVideoElements kws doc.
Proof.
  intros Hun. rewrite (scan_unnested doc Hun).
  rewrite scan_unnested by by apply scanTree_unnested.
  apply scanTree_twice.
Qed.

(** X14. Scanning a page.  On a page where no video container lies
    inside another, [processAllVideoElements] returns the tree in which
    every video container is replaced by the result of one call of
    [processVideoElement] on it, with the elements above it as its
    ancestors, and every other node is as it was. *)
Theorem page_scanned_container_by_container doc :
  unnested doc = true →
  processAllVideoElements kws doc = scanTree kws [] doc.
Proof.
  intros Hun. unfold processAllVideoElements.
  rewrite passes_unnested; [|by apply Forall_forall|done].
  by apply passes_are_scanTree.
Qed.

(** X15. On a page where no video container lies inside another, a second
    scan returns the same tree as the first. *)
Theorem page_scan_idempotent doc :
  unnested doc = true →
  processAllVideoElements kws (processAllVideoElements kws doc)
  = processAllVideoElements kws doc.
Proof.
  intros Hun. rewrite (scan_unnested doc Hun).
  rewrite scan_unnested by by apply scanTree_unnested.
  apply scanTree_twice.
Qed.

End unnested_pages.

(** * The further properties on sample pages *)

Section more_on_samples.

Import Samples MoreSamples.

Lemma keywords_as_a_set_witness :
  containsSpoiler ["finale"; "war"; "finale"] "Star Wars"
  = containsSpoiler ["war"; "finale"] "Star Wars".
Proof.
  apply (keywords_as_a_set ["finale"; "war"; "finale"] ["war"; "finale"] "Star Wars").
  intros keyword. rewrite !elem_of_cons, !elem_of_nil. tauto.
Defined.

Lemma unmatched_item_untouched_witness :
  result (processVideoElement ["finale"] [] (card "Cooking pasta"))
  = card "Cooking pasta".
Proof.
  apply (unmatched_item_untouched ["finale"] [] (card "Cooking pasta")).
  intros tp [= <-]. reflexivity.
Defined.

Lemma matching_item_gets_overlay_witness :
  processVideoElement ["finale"] [] (card "Season Finale Recap")
  = Processed Masked maskedCard
      [ CallContainsSpoiler "Season Finale Recap";
        ConsoleLog (spoilerMessage "Season Finale Recap") ]
      (Some [1]).
Proof.
  apply (matching_item_gets_overlay ["finale"] [] (card "Season Finale Recap")
           [1] [0] [plain "ytd-video-renderer"] thumbnail).
  - reflexivity.
  - discriminate.
  - intros [Hsentinel _]. discriminate Hsentinel.
  - reflexivity.
  - reflexivity.
  - reflexivity.
  - reflexivity.
Defined.

Lemma masked_item_then_skipped_witness :
  processVideoElement ["finale"] []
    (result (processVideoElement ["finale"] [] (card "Season Finale Recap")))
  = Processed SkippedAlreadyMasked
      (result (processVideoElement ["finale"] [] (card "Season Finale Recap")))
      [] None.
Proof.
  apply (masked_item_then_skipped ["finale"] [] (card "Season Finale Recap") [1] [0]).
  - reflexivity.
  - reflexivity.
  - reflexivity.
  - discriminate.
Defined.


Lemma scan_without_match_witness :
  processAllVideoElements [] listing = listing
  ∧ document (observerCallback [] batch (World listing 0)) = listing.
Proof.
  apply (scan_without_match [] listing batch 0). intros text. reflexivity.
Defined.

Lemma scan_without_containers_witness :
  processAllVideoElements ["finale"] article = article.
Proof. apply (scan_without_containers ["finale"] article). reflexivity. Defined.

Lemma page_scanned_container_by_container_witness :
  processAllVideoElements ["finale"] home = scanTree ["finale"] [] home.
Proof.
  apply (page_scanned_container_by_container ["finale"] home). reflexivity.
Defined.

Lemma page_scan_idempotent_witness :
  processAllVideoElements ["finale"] (processAllVideoElements ["finale"] home)
  = processAllVideoElements ["finale"] home.
Proof. apply (page_scan_idempotent ["finale"] home). reflexivity. Defined.

End more_on_samples.

(** * After the first scan *)

Section settled.

Variable kws : list string.

(** X16. On a page where no video container lies inside another, the tree
    that the first scan returns is the tree after any sequence of further
    full scans and batches of mutation records, in whatever number and
    order. *)
Theorem scanned_page_settled doc (calls : list call) (n : nat) :
  unnested doc = true →
  Forall (fun c => match c with Annotate _ => False | _ => True end) calls →
  document
    (fold_left (perform kws) calls (World (processAllVideoElements kws doc) n))
  = processAllVideoElements kws doc.
Proof.
  intros Hun Hcalls.
  pose proof (scanned_page_fixed kws doc Hun) as Hfixed.
  revert n. induction Hcalls as [|c calls Hc _ IH]; intros n; [done|].
  cbn [fold_left]. destruct c as [r| |mutations]; [done|..].
  - unfold perform, scanAll. cbn [document scans]. rewrite Hfixed. apply IH.
  - unfold perform, observerCallback.
    destruct (fold_left _ mutations false); [|apply IH].
    unfold scanAll. cbn [document scans]. rewrite Hfixed. apply IH.
Qed.

End settled.

Lemma scanned_page_settled_witness :
  document
    (fold_left (perform ["finale"])
       [ScanAll; Notify Samples.batch; Notify Samples.removals; ScanAll]
       (World (processAllVideoElements ["finale"] MoreSamples.home) 1))
  = processAllVideoElements ["finale"] MoreSamples.home.
Proof.
  apply (scanned_page_settled ["finale"] MoreSamples.home
           [ScanAll; Notify Samples.batch; Notify Samples.removals; ScanAll] 1).
  - reflexivity.
  - repeat constructor.
Defined.
